(** * ROI statistics of suite2p ([suite2p/detection/stats.py])

    A shallow embedding of the module that derives geometric descriptors
    of a region of interest (ROI): the radial reference table, the ROI
    value object with its derived properties, the weighted Gaussian
    ellipse fit and the deprecated batch adapter [roi_stats].

    Numbers.  NumPy computes in IEEE-754 binary64.  The embedding keeps
    the special values of that format (not-a-number and the two
    infinities) and the rules by which they arise and propagate, and
    idealises the finite values as real numbers: no rounding, no
    overflow, a single zero.  The properties below are proved for this
    idealised arithmetic; a real number that binary64 does not hold, such
    as [R * sqrt 2], stands for its rounding.  Where sums, products or
    quotients of finite values are compared, the properties are stated in
    a form that carries over to binary64: bounds are closed or carry a
    margin, and hypotheses keep the magnitudes in the range where binary64
    neither overflows nor loses an integer.  Where rounding changes a
    result, the arithmetic in question is given a second time over
    binary64 itself (section "The same arithmetic in binary64") and
    evaluated. *)

From Stdlib Require Import PrimFloat.
From Stdlib Require Import Reals Lra Lia ZArith List Sorted Permutation.
From stdpp Require Import gmap strings list pretty.

#[local] Set Warnings "-inexact-float".
Local Open Scope R_scope.

(** ** Floating-point values *)

Inductive float64 : Type :=
| Fin (r : R)
| Inf (neg : bool)
| NaN.

Definition Rneg (r : R) : bool := if Rlt_dec r 0 then true else false.
Definition Rzero (r : R) : bool := if Req_dec_T r 0 then true else false.
Definition Rleb (a b : R) : bool := if Rle_dec a b then true else false.

Definition of_int (z : Z) : float64 := Fin (IZR z).
Definition of_nat (n : nat) : float64 := Fin (INR n).

Definition isfinite (a : float64) : bool :=
  match a with Fin _ => true | _ => false end.

Definition isnan (a : float64) : bool :=
  match a with NaN => true | _ => false end.

Definition Fopp (a : float64) : float64 :=
  match a with
  | Fin x => Fin (- x)
  | Inf s => Inf (negb s)
  | NaN => NaN
  end.

Definition Fadd (a b : float64) : float64 :=
  match a, b with
  | NaN, _ | _, NaN => NaN
  | Inf s, Inf t => if Bool.eqb s t then Inf s else NaN
  | Inf s, Fin _ | Fin _, Inf s => Inf s
  | Fin x, Fin y => Fin (x + y)
  end.

Definition Fsub (a b : float64) : float64 := Fadd a (Fopp b).

Definition Fmul (a b : float64) : float64 :=
  match a, b with
  | NaN, _ | _, NaN => NaN
  | Inf s, Inf t => Inf (xorb s t)
  | Inf s, Fin y | Fin y, Inf s => if Rzero y then NaN else Inf (xorb s (Rneg y))
  | Fin x, Fin y => Fin (x * y)
  end.

(** NumPy's true division: a zero divisor gives an infinity or
    not-a-number (with a warning), never an exception. *)
Definition Fdiv (a b : float64) : float64 :=
  match a, b with
  | NaN, _ | _, NaN => NaN
  | Inf _, Inf _ => NaN
  | Inf s, Fin y => Inf (xorb s (Rneg y))
  | Fin _, Inf _ => Fin 0
  | Fin x, Fin y =>
      if Rzero y then (if Rzero x then NaN else Inf (Rneg x)) else Fin (x / y)
  end.

Definition Fsqrt (a : float64) : float64 :=
  match a with
  | NaN => NaN
  | Inf s => if s then NaN else Inf false
  | Fin x => if Rneg x then NaN else Fin (sqrt x)
  end.

Definition Fcos (a : float64) : float64 :=
  match a with Fin x => Fin (cos x) | _ => NaN end.

Definition Fsin (a : float64) : float64 :=
  match a with Fin x => Fin (sin x) | _ => NaN end.

(** The order [np.sort] uses: numbers ascending, not-a-number last. *)
Definition Fleb (a b : float64) : bool :=
  match a, b with
  | _, NaN => true
  | NaN, _ => false
  | Inf s, Inf t => orb s (negb t)
  | Inf s, Fin _ => s
  | Fin _, Inf t => negb t
  | Fin x, Fin y => Rleb x y
  end.

(** [np.maximum]: the larger argument, not-a-number if either is. *)
Definition Fmaximum (a b : float64) : float64 :=
  match a, b with
  | NaN, _ | _, NaN => NaN
  | _, _ => if Fleb a b then b else a
  end.

(** Numeric comparison ([<=], [<]); false as soon as not-a-number is involved. *)
Definition Fle (a b : float64) : Prop :=
  match a, b with
  | NaN, _ | _, NaN => False
  | Inf s, Inf t => s = true \/ t = false
  | Inf s, Fin _ => s = true
  | Fin _, Inf t => t = false
  | Fin x, Fin y => x <= y
  end.

Definition Flt (a b : float64) : Prop :=
  match a, b with
  | NaN, _ | _, NaN => False
  | Inf s, Inf t => s = true /\ t = false
  | Inf s, Fin _ => s = true
  | Fin _, Inf t => t = false
  | Fin x, Fin y => x < y
  end.

(** ** [aspect_ratio] *)

Definition default_offset : float64 := Fin 0.01.

(** [2 * ry / (ry + rx + offset)] *)
Definition aspect_ratio (ry rx : float64) (offset : float64) : float64 :=
  Fdiv (Fmul (Fin 2) ry) (Fadd (Fadd ry rx) offset).

(** ** Exceptions *)

Inductive exn : Type :=
| TypeError (msg : string)
| ValueError (msg : string)
| KeyError (key : string)
| LinAlgError (msg : string).

Inductive result (A : Type) : Type :=
| Ok (a : A)
| Raise (e : exn).
Arguments Ok {A} a.
Arguments Raise {A} e.

#[global] Instance result_ret : MRet result := fun A a => Ok a.
#[global] Instance result_bind : MBind result := fun A B f m =>
  match m with Ok a => f a | Raise e => Raise e end.
#[global] Instance result_fmap : FMap result := fun A B f m =>
  match m with Ok a => Ok (f a) | Raise e => Raise e end.

Definition raises {A} (m : result A) : Prop :=
  match m with Raise _ => True | Ok _ => False end.

Definition returns {A} (m : result A) : Prop :=
  match m with Ok _ => True | Raise _ => False end.

(** ** The NumPy operations the module uses *)

Definition np_sum (a : list float64) : float64 := foldr Fadd (Fin 0) a.

(** [np.mean]: the sum over the count; not-a-number on an empty array. *)
Definition np_mean (a : list float64) : float64 :=
  Fdiv (np_sum a) (of_nat (length a)).

Fixpoint sort_insert (v : float64) (a : list float64) : list float64 :=
  match a with
  | [] => [v]
  | w :: a' => if Fleb v w then v :: a else w :: sort_insert v a'
  end.

(** [np.sort]: ascending, not-a-number last. *)
Fixpoint np_sort (a : list float64) : list float64 :=
  match a with
  | [] => []
  | v :: a' => sort_insert v (np_sort a')
  end.

(** [np.median]: middle element of the sorted array, or the mean of the two
    middle ones; not-a-number if the array is empty or holds one. *)
Definition np_median (a : list float64) : float64 :=
  let s := np_sort a in
  let n := length a in
  if existsb isnan a then NaN
  else match n with
       | O => NaN
       | _ => if Nat.even n
              then np_mean [nth (n / 2 - 1) s NaN; nth (n / 2) s NaN]
              else nth (n / 2) s NaN
       end.

(** [np.nanmedian]: the median of the entries that are numbers. *)
Definition np_nanmedian (a : list float64) : float64 :=
  np_median (filter (fun v => negb (isnan v) = true) a).

(** [np.arange(lo, hi)] on integers. *)
Definition np_arange (lo hi : Z) : list Z :=
  map (fun i => (lo + Z.of_nat i)%Z) (seq 0 (Z.to_nat (hi - lo))).

(** Two arrays stacked as the rows of a 2 x n array ([np.stack], or the
    conversion of a pair of arrays): the rows must have one length. *)
Definition stack2 (a b : list float64) : result (list float64 * list float64) :=
  if decide (length a = length b) then Ok (a, b)
  else Raise (ValueError "all input arrays must have the same shape").

(** [norm(rows, axis=0)]: the Euclidean norm of each column. *)
Definition hypot2 (a b : float64) : float64 :=
  Fsqrt (Fadd (Fmul a a) (Fmul b b)).

Definition norm_axis0 (rows : list float64 * list float64) : list float64 :=
  zip_with hypot2 rows.1 rows.2.

(** Elementwise operation on two one-dimensional arrays under NumPy's
    broadcasting: equal lengths, or one of them of length one. *)
Definition broadcast (f : float64 -> float64 -> float64) (a b : list float64)
  : result (list float64) :=
  if decide (length a = length b) then Ok (zip_with f a b)
  else match a, b with
       | [a0], _ => Ok (map (f a0) b)
       | _, [b0] => Ok (map (fun v => f v b0) a)
       | _, _ => Raise (ValueError "operands could not be broadcast together")
       end.

(** [np.linspace(start, stop, num)], end point included; the message of the
    exception names the number of samples asked for. *)
Definition np_linspace (start stop : R) (num : Z) : result (list float64) :=
  if (num <? 0)%Z
  then Raise (ValueError ("Number of samples, " +:+ pretty num
                          +:+ ", must be non-negative."))
  else Ok (map (fun i =>
                  Fin (if (num =? 1)%Z then INR i * (stop - start) + start
                       else INR i * ((stop - start) / (IZR num - 1)) + start))
               (seq 0 (Z.to_nat num))).

Definition vec2 : Type := float64 * float64.
Definition mat2 : Type := vec2 * vec2.

Definition dot (a b : list float64) : float64 := np_sum (zip_with Fmul a b).

(** ** [distance_kernel] and the radial reference table *)

Definition distance_kernel (radius : Z) : list (list float64) :=
  let d := np_arange (- radius) (radius + 1) in
  map (fun yi => map (fun xj => hypot2 (of_int xj) (of_int yi)) d) d.

Definition flatten (m : list (list float64)) : list float64 := concat m.

Definition radial_reference (radius : Z) : list float64 :=
  np_sort (flatten (distance_kernel radius)).

(** ** [mean_r_squared] *)

Definition mean_r_squared (y x : list float64)
    (estimator : list float64 -> float64) : result float64 :=
  rows ← stack2 (map (fun v => Fsub v (estimator y)) y)
                (map (fun v => Fsub v (estimator x)) x);
  Ok (np_mean (norm_axis0 rows)).

(** ** The ellipse fit *)

Record EllipseData : Type := mkEllipseData {
  mu : vec2;
  cov : mat2;
  radii : vec2;
  ellipse : list vec2
}.

Definition EllipseData_area (e : EllipseData) : float64 :=
  Fmul (Fsqrt (Fmul (radii e).1 (radii e).2)) (Fin PI).

(** [np.sort(radii)[::-1]] on the two radii. *)
Definition sort_descending (r : vec2) : vec2 :=
  match rev (np_sort [r.1; r.2]) with
  | [a; b] => (a, b)
  | _ => r
  end.

Section Fit.

(** The eigen-solver behind [np.linalg.eig] on a finite real 2 x 2 matrix:
    the eigenvalues and the matrix whose columns are the eigenvectors.  It
    belongs to LAPACK, not to this module; the fit is stated for any solver.
    The matrices the fit passes are symmetric, so the decomposition is real
    and [np.real] leaves the eigenvalues as they are. *)
Variable eig_finite : (R * R) * (R * R) -> (R * R) * ((R * R) * (R * R)).

(** [np.linalg.eig] refuses a matrix that holds an infinity or not-a-number. *)
Definition np_linalg_eig (a : mat2) : result (vec2 * mat2) :=
  match a with
  | ((Fin a00, Fin a01), (Fin a10, Fin a11)) =>
      let '((w0, w1), ((v00, v01), (v10, v11))) :=
        eig_finite ((a00, a01), (a10, a11)) in
      Ok ((Fin w0, Fin w1), ((Fin v00, Fin v01), (Fin v10, Fin v11)))
  | _ => Raise (LinAlgError "Array must not contain infs or NaNs")
  end.

(** The in-place statement [lam /= lam.sum()]: the new contents of the
    array object bound to [lam]. *)
Definition normalize_inplace (lam : list float64) : list float64 :=
  map (fun l => Fdiv l (np_sum lam)) lam.

(** The body of [fitMVGaus] after its first statement; [lam] is the
    normalized array. *)
Definition fit_normalized (y x lam : list float64) (thres : float64) (npts : Z)
  : result EllipseData :=
  (* yx = np.stack((y, x)) *)
  yx ← stack2 y x;
  (* mu = (lam * yx).sum(axis=1) *)
  ly ← broadcast Fmul lam yx.1;
  lx ← broadcast Fmul lam yx.2;
  let mu := (np_sum ly, np_sum lx) in
  (* yx = (yx - mu[:, np.newaxis]) * lam ** .5 *)
  cy ← broadcast Fmul (map (fun v => Fsub v mu.1) yx.1) (map Fsqrt lam);
  cx ← broadcast Fmul (map (fun v => Fsub v mu.2) yx.2) (map Fsqrt lam);
  (* cov = yx @ yx.T *)
  let cov := ((dot cy cy, dot cy cx), (dot cx cy, dot cx cx)) in
  (* radii, evec = np.linalg.eig(cov) *)
  '(w, evec) ← np_linalg_eig cov;
  (* radii = thres * np.maximum(0, np.real(radii)) ** .5 *)
  let r0 := Fmul thres (Fsqrt (Fmaximum (Fin 0) w.1)) in
  let r1 := Fmul thres (Fsqrt (Fmaximum (Fin 0) w.2)) in
  (* theta = np.linspace(0, 2 * np.pi, npts) *)
  theta ← np_linspace 0 (2 * PI) npts;
  (* p = np.stack((np.cos(theta), np.sin(theta)))
     ellipse = (p.T * radii) @ evec.T + mu *)
  let ellipse :=
    map (fun t =>
           let q0 := Fmul (Fcos t) r0 in
           let q1 := Fmul (Fsin t) r1 in
           (Fadd (Fadd (Fmul q0 evec.1.1) (Fmul q1 evec.1.2)) mu.1,
            Fadd (Fadd (Fmul q0 evec.2.1) (Fmul q1 evec.2.2)) mu.2))
        theta in
  (* radii = np.sort(radii)[::-1] *)
  Ok (mkEllipseData mu cov (sort_descending (r0, r1)) ellipse).

(** [fitMVGaus(y, x, lam, thres, npts)].  The first component is the
    contents of the caller's [lam] array when the call ends (by return or
    by exception): the function normalizes that array in place. *)
Definition fitMVGaus (y x lam : list float64) (thres : float64) (npts : Z)
  : list float64 * result EllipseData :=
  let lam' := normalize_inplace lam in
  (lam', fit_normalized y x lam' thres npts).

Definition default_thres : float64 := Fin 2.5.
Definition default_npts : Z := 100.

(** [calc_radii]: [fitMVGaus(ypix / dy, xpix / dx, lam, 2).radii]. *)
Definition calc_radii (dy dx : Z) (ypix xpix : list Z) (lam : list float64)
  : list float64 * result vec2 :=
  let fit := fitMVGaus (map (fun v => Fdiv (of_int v) (of_int dy)) ypix)
                       (map (fun v => Fdiv (of_int v) (of_int dx)) xpix)
                       lam (Fin 2) default_npts in
  (fit.1, radii <$> fit.2).

End Fit.

(** A solver for the symmetric matrices the fit produces, in closed form;
    used to run the fit on concrete inputs. *)
Definition eig_symmetric (a : (R * R) * (R * R)) : (R * R) * ((R * R) * (R * R)) :=
  let '((a00, a01), (a10, a11)) := a in
  if Req_dec_T a01 0 then ((a00, a11), ((1, 0), (0, 1)))
  else
    let m := (a00 + a11) / 2 in
    let s := sqrt (((a00 - a11) / 2) * ((a00 - a11) / 2) + a01 * a10) in
    let w0 := m + s in
    let w1 := m - s in
    let n0 := sqrt (a01 * a01 + (w0 - a00) * (w0 - a00)) in
    let n1 := sqrt (a01 * a01 + (w1 - a00) * (w1 - a00)) in
    ((w0, w1), ((a01 / n0, a01 / n1), ((w0 - a00) / n0, (w1 - a00) / n1))).

(** ** The ROI value object *)

(** Pixel coordinates are integer arrays and the weights a float array, as
    the detection stage supplies them; all three are one-dimensional, so
    that the shape of each is its length. *)
Record ROI : Type := mkROI {
  ypix : list Z;
  xpix : list Z;
  lam : list float64;
  dx : option Z;
  dy : option Z;
  rsort : list float64
}.

(** The default of the field [rsort]. *)
Definition default_rsort : list float64 := radial_reference 30.

(** Construction: the generated initializer followed by [__post_init__],
    which compares the shapes of the three arrays. *)
Definition ROI_init (ypix xpix : list Z) (lam : list float64)
    (dx dy : option Z) (rsort : list float64) : result ROI :=
  if bool_decide (length xpix ≠ length ypix) || bool_decide (length xpix ≠ length lam)
  then Raise (TypeError "xpix, ypix, and lam should all be the same size.")
  else Ok (mkROI ypix xpix lam dx dy rsort).

Definition ROI_mean_r_squared (roi : ROI) : result float64 :=
  mean_r_squared (map of_int (ypix roi)) (map of_int (xpix roi)) np_median.

(** [np.mean(self.rsort[:self.ypix.size])]; a slice stops at the end of the
    array. *)
Definition ROI_mean_r_squared0 (roi : ROI) : float64 :=
  np_mean (firstn (length (ypix roi)) (rsort roi)).

Definition ROI_mean_r_squared_compact (roi : ROI) : result float64 :=
  mrs ← ROI_mean_r_squared roi;
  Ok (Fdiv mrs (Fadd (Fin 1e-10) (ROI_mean_r_squared0 roi))).

Definition ROI_median_pix (roi : ROI) : vec2 :=
  (np_median (map of_int (ypix roi)), np_median (map of_int (xpix roi))).

Definition ROI_n_pixels (roi : ROI) : nat := length (xpix roi).

(** The reading of [mean_r_squared] in words, to compare the code with:
    the mean Euclidean distance of the pixels [(y, x)] from a centre. *)
Definition mean_distance_from (centre : vec2) (pixels : list (Z * Z)) : float64 :=
  np_mean (map (fun p => hypot2 (Fsub (of_int p.1) centre.1)
                                (Fsub (of_int p.2) centre.2)) pixels).

Definition ROI_set_lam (roi : ROI) (lam' : list float64) : ROI :=
  mkROI (ypix roi) (xpix roi) lam' (dx roi) (dy roi) (rsort roi).

(** [np.mean((self.dx, self.dy))] *)
Definition mean_scale (dx dy : option Z) : result float64 :=
  match dx, dy with
  | Some dx, Some dy => Ok (np_mean [of_int dx; of_int dy])
  | _, _ => Raise (TypeError "unsupported operand type(s): NoneType")
  end.

Section Properties.

Variable eig_finite : (R * R) * (R * R) -> (R * R) * ((R * R) * (R * R)).

(** The properties that run the ellipse fit.  The fit receives the ROI's
    own [lam] array and normalizes it in place, so each access yields, next
    to its value or exception, the ROI as it is afterwards. *)
Definition ROI_radii (roi : ROI) : ROI * result vec2 :=
  match dx roi, dy roi with
  | Some dx, Some dy =>
      let r := calc_radii eig_finite dy dx (ypix roi) (xpix roi) (lam roi) in
      (ROI_set_lam roi r.1, r.2)
  | _, _ => (roi, Raise (TypeError "dx and dy are required for calculating radii."))
  end.

(** [self.radii[0] * np.mean((self.dx, self.dy))] *)
Definition ROI_radius (roi : ROI) : ROI * result float64 :=
  let r := ROI_radii roi in
  (r.1, radii ← r.2; m ← mean_scale (dx roi) (dy roi); Ok (Fmul radii.1 m)).

Definition ROI_aspect_ratio (roi : ROI) : ROI * result float64 :=
  let r := ROI_radii roi in
  (r.1, radii ← r.2; Ok (aspect_ratio radii.1 radii.2 default_offset)).

End Properties.

(** ** The population normalizer *)

(** Modelled from the spec: [norm_by_average] of [suite2p/detection/utils.py],
    which is imported here and not part of this module.  The estimator is
    taken over [values[:first_n]] (over all of [values] without a cap), the
    offset is added, and every value is divided by the sum. *)
Definition norm_by_average (values : list float64)
    (estimator : list float64 -> float64) (offset : float64)
    (first_n : option nat) : list float64 :=
  let head := match first_n with Some n => firstn n values | None => values end in
  map (fun v => Fdiv v (Fadd (estimator head) offset)) values.

(** Modelled from the spec: the estimator [norm_by_average] uses when the
    caller passes none. *)
Definition default_estimator : list float64 -> float64 := np_median.

(** ** The batch adapter [roi_stats] *)

(** What a record holds under a key: the pixel arrays (integer), the weight
    array (float), numbers, and the list [roi_stats] stores under ['med'].
    A record whose ['ypix'], ['xpix'] or ['lam'] is of another kind is
    refused with [TypeError]. *)
Inductive value : Type :=
| VIntArray (a : list Z)
| VFloatArray (a : list float64)
| VFloat (v : float64)
| VInt (n : Z)
| VList (l : list float64).

Definition get (stat : gmap string value) (key : string) : result value :=
  match stat !! key with
  | Some v => Ok v
  | None => Raise (KeyError key)
  end.

Definition as_int_array (v : value) : result (list Z) :=
  match v with VIntArray a => Ok a | _ => Raise (TypeError "integer array expected") end.

Definition as_float_array (v : value) : result (list float64) :=
  match v with VFloatArray a => Ok a | _ => Raise (TypeError "float array expected") end.

Definition as_float (v : value) : result float64 :=
  match v with
  | VFloat f => Ok f
  | VInt n => Ok (of_int n)
  | _ => Raise (TypeError "number expected")
  end.

Fixpoint for_each {A B} (f : A -> result B) (l : list A) : result (list B) :=
  match l with
  | [] => Ok []
  | a :: l' => b ← f a; bs ← for_each f l'; Ok (b :: bs)
  end.

(** [ROI(ypix=stat['ypix'], xpix=stat['xpix'], lam=stat['lam'], dx=dx, dy=dy)] *)
Definition roi_of_record (dy dx : Z) (stat : gmap string value) : result ROI :=
  ypix ← get stat "ypix" ≫= as_int_array;
  xpix ← get stat "xpix" ≫= as_int_array;
  weights ← get stat "lam" ≫= as_float_array;
  ROI_init ypix xpix weights (Some dx) (Some dy) default_rsort.

Section Batch.

Variable eig_finite : (R * R) * (R * R) -> (R * R) * ((R * R) * (R * R)).

(** The body of the first loop, on one record.  The record's ['lam'] and the
    ROI's [lam] are one array object: what the fit does to it shows in the
    record. *)
Definition roi_stats_record (dy dx : Z) (stat : gmap string value)
  : result (gmap string value) :=
  roi ← roi_of_record dy dx stat;
  mrs ← ROI_mean_r_squared roi;
  let stat := <["mrs" := VFloat mrs]> stat in
  let stat := <["mrs0" := VFloat (ROI_mean_r_squared0 roi)]> stat in
  compact ← ROI_mean_r_squared_compact roi;
  let stat := <["compact" := VFloat compact]> stat in
  let med := ROI_median_pix roi in
  let stat := <["med" := VList [med.1; med.2]]> stat in
  let stat := <["npix" := VInt (Z.of_nat (ROI_n_pixels roi))]> stat in
  match stat !! "radius" with
  | Some _ => Ok stat
  | None =>
      let r := ROI_radius eig_finite roi in
      let stat := <["lam" := VFloatArray (lam r.1)]> stat in
      radius ← r.2;
      let stat := <["radius" := VFloat radius]> stat in
      let a := ROI_aspect_ratio eig_finite r.1 in
      let stat := <["lam" := VFloatArray (lam a.1)]> stat in
      ar ← a.2;
      Ok (<["aspect_ratio" := VFloat ar]> stat)
  end.

(** The body of the second loop. *)
Definition roi_stats_normed (stat : gmap string value) (mrs_normed npix_normed : float64)
  : gmap string value :=
  let stat := <["mrs" := VFloat mrs_normed]> stat in
  let stat := <["npix_norm" := VFloat npix_normed]> stat in
  match stat !! "footprint" with
  | None => <["footprint" := VInt 0]> stat
  | Some v => <["footprint" := v]> stat
  end.

(** [roi_stats(dy, dx, stats)]: the records as they are when the function
    returns.  The records of a batch are taken to be distinct objects with
    distinct arrays.  The deprecation warning issued on entry changes
    nothing and is left out. *)
Definition roi_stats (dy dx : Z) (stats : list (gmap string value))
  : result (list (gmap string value)) :=
  stats ← for_each (roi_stats_record dy dx) stats;
  mrs ← for_each (fun stat => get stat "mrs" ≫= as_float) stats;
  let mrs_normeds := norm_by_average mrs np_nanmedian (Fin 1e-10) (Some 100%nat) in
  npix ← for_each (fun stat => get stat "npix" ≫= as_float) stats;
  let npix_normeds := norm_by_average npix default_estimator (Fin 0) (Some 100%nat) in
  Ok (zip_with (fun stat n => roi_stats_normed stat n.1 n.2)
               stats (zip mrs_normeds npix_normeds)).

End Batch.

(** ** A sample batch *)

(** One record of two pixels in a column, with unit weights, that already
    carries a radius. *)
Definition two_pixel_record : gmap string value :=
  <["ypix" := VIntArray [0; 1]%Z]>
    (<["xpix" := VIntArray [0; 0]%Z]>
       (<["lam" := VFloatArray [Fin 1; Fin 1]]>
          (<["radius" := VFloat (Fin 1)]> ∅))).

Definition two_pixel_roi : ROI :=
  mkROI [0; 1]%Z [0; 0]%Z [Fin 1; Fin 1] (Some 1%Z) (Some 1%Z) default_rsort.

(** ** Notions used in the statements *)

(** The order of [np.sort] as a relation. *)
Definition Fleb_rel (a b : float64) : Prop := Fleb a b = true.

(** What the square of an infinity or of not-a-number is. *)
Definition pos_inf_or_nan (a : float64) : Prop := a = Inf false \/ a = NaN.

(** The sum of real numbers, for arrays whose entries are all finite. *)
Definition Rsum (a : list R) : R := foldr Rplus 0 a.

(** The [n] smallest entries of a table: [n] of its entries, none of them
    larger than an entry that is left out. *)
Definition smallest_entries (n : nat) (table sel : list float64) : Prop :=
  length sel = n /\
  exists rest, Permutation table (sel ++ rest) /\
               forall a b, In a sel -> In b rest -> Fle a b.

(** The median of a list of numbers.  The list splits into a lower part
    with greatest entry [u] and an upper part that holds nothing below [u];
    when the lower part is the longer by one, [u] is the median; when the
    two parts are of one length, the median is halfway between [u] and the
    least entry [v] of the upper part. *)
Definition is_median (m : R) (a : list R) : Prop :=
  exists lo hi u,
    Permutation a (lo ++ hi) /\ In u lo /\ Forall (fun w => w <= u) lo /\
    ((length lo = S (length hi) /\ Forall (fun w => u <= w) hi /\ m = u) \/
     (length lo = length hi /\
      exists v, In v hi /\ Forall (fun w => v <= w) hi /\ u <= v /\ m = (u + v) / 2)).

(** Pixel coordinates of a magnitude up to [2^24]: binary64 holds them, their
    medians, their distances from a median and the squares of these
    distances without rounding. *)
Definition pixel_range (z : Z) : Prop := (- 2 ^ 24 <= z <= 2 ^ 24)%Z.

(** Radii, weights and coordinates of a magnitude binary64 handles without
    overflow in the sums and products the module forms. *)
Definition max_radius : R := 1e300.
Definition max_weight : R := 1e100.
Definition min_weight : R := 1e-100.
Definition max_coordinate : R := 1e100.

(** Adding a finite constant to a float. *)
Definition shift (c : R) (v : float64) : float64 := Fadd v (Fin c).

(** The keys [roi_stats] assigns to in a record. *)
Definition written_keys : list string :=
  ["mrs"; "mrs0"; "compact"; "med"; "npix"; "radius"; "aspect_ratio"; "lam";
   "npix_norm"; "footprint"].

(** A record [roi_stats] can work on: pixel arrays and weights of one size
    under their keys, and either a radius already there or what the fit
    needs, non-zero scale factors and non-negative weights of positive sum,
    none of them above [max_weight], so that their sum does not overflow. *)
Definition record_ok (ky kx : Z) (s : gmap string value) : Prop :=
  exists yp xp l,
    s !! "ypix" = Some (VIntArray yp) /\
    s !! "xpix" = Some (VIntArray xp) /\
    s !! "lam" = Some (VFloatArray l) /\
    length xp = length yp /\ length xp = length l /\
    (is_Some (s !! "radius") \/
     exists rl, l = map Fin rl /\ kx <> 0%Z /\ ky <> 0%Z /\
                Forall (fun w => 0 <= w <= max_weight) rl /\ 0 < Rsum rl).

(** A record of four pixels, the unit square, that carries no radius. *)
Definition unit_square_record : gmap string value :=
  <["ypix" := VIntArray [0; 0; 1; 1]%Z]>
    (<["xpix" := VIntArray [0; 1; 0; 1]%Z]>
       (<["lam" := VFloatArray (map Fin [1; 1; 1; 1])]> ∅)).

(** The two-pixel record moved by [(5, 7)]. *)
Definition moved_two_pixel_record : gmap string value :=
  <["ypix" := VIntArray [5; 6]%Z]>
    (<["xpix" := VIntArray [7; 7]%Z]>
       (<["lam" := VFloatArray [Fin 2; Fin 3]]>
          (<["radius" := VFloat (Fin 1)]> ∅))).

(** ** The same arithmetic in binary64 *)

(** Rocq's primitive floats are the IEEE-754 binary64 numbers under
    round-to-nearest-even, the arithmetic NumPy computes in.  The pure
    arithmetic of [aspect_ratio] and of the first statements of
    [fitMVGaus] is given over them as well, on arrays of two entries, where
    the sum of an array is a single addition.  Evaluated on concrete
    inputs, it shows where the rounding that the embedding above leaves
    out changes a result. *)

(** [2 * ry / (ry + rx + offset)] *)
Definition b64_aspect_ratio (ry rx offset : float) : float :=
  (2 * ry / (ry + rx + offset))%float.

(** [c * lam], the weights a caller rescales. *)
Definition b64_scale (c : float) (lam : float * float) : float * float :=
  ((c * lam.1)%float, (c * lam.2)%float).

(** [lam /= lam.sum()] *)
Definition b64_normalize_inplace (lam : float * float) : float * float :=
  let s := (lam.1 + lam.2)%float in ((lam.1 / s)%float, (lam.2 / s)%float).

(** One row of [mu = (lam * yx).sum(axis=1)]. *)
Definition b64_weighted_sum (lam y : float * float) : float :=
  (lam.1 * y.1 + lam.2 * y.2)%float.

(** * Properties *)

Ltac rdec :=
  unfold Rzero, Rneg, Rleb in *;
  repeat match goal with
  | |- context [Req_dec_T ?a ?b] => destruct (Req_dec_T a b); try lra
  | |- context [Rlt_dec ?a ?b] => destruct (Rlt_dec a b); try lra
  | |- context [Rle_dec ?a ?b] => destruct (Rle_dec a b); try lra
  | H : context [Req_dec_T ?a ?b] |- _ => destruct (Req_dec_T a b); try lra
  | H : context [Rlt_dec ?a ?b] |- _ => destruct (Rlt_dec a b); try lra
  | H : context [Rle_dec ?a ?b] |- _ => destruct (Rle_dec a b); try lra
  end.

(** ** [aspect_ratio] *)

Lemma aspect_ratio_fin (ry rx off : R) :
  ry + rx + off <> 0 ->
  aspect_ratio (Fin ry) (Fin rx) (Fin off) = Fin (2 * ry / (ry + rx + off)).
Proof.
  intros H. unfold aspect_ratio. simpl. rdec. reflexivity.
Qed.

(** C6, as stated, fails: for the equal radii [0.005] the default offset
    [0.01] is as large as their sum, and the ratio is one half, not one. *)
Lemma aspect_ratio_circle_not_one :
  aspect_ratio (Fin 0.005) (Fin 0.005) default_offset = Fin 0.5.
Proof.
  unfold default_offset. rewrite aspect_ratio_fin by lra. f_equal. lra.
Qed.

Lemma aspect_ratio_bounds (ry rx : R) :
  0 <= ry -> 0 <= rx ->
  0 <= 2 * ry / (ry + rx + 0.01) < 2.
Proof.
  intros Hy Hx. assert (Hd : 0 < ry + rx + 0.01) by lra. split.
  - apply Rmult_le_pos; [lra |]. apply Rlt_le, Rinv_0_lt_compat, Hd.
  - apply Rmult_lt_reg_r with (ry + rx + 0.01); [exact Hd |].
    unfold Rdiv. rewrite Rmult_assoc, Rinv_l by lra. lra.
Qed.

(** The quotient [2 ry / (ry + rx + 0.01)] grows with [ry] and falls with
    [rx]. *)
Lemma aspect_ratio_quotient_le (ry ry' rx rx' : R) :
  0 <= ry -> ry <= ry' -> 0 <= rx' -> rx' <= rx ->
  2 * ry / (ry + rx + 0.01) <= 2 * ry' / (ry' + rx' + 0.01).
Proof.
  intros Hy Hyy Hx Hxx.
  apply Rmult_le_reg_r with ((ry + rx + 0.01) * (ry' + rx' + 0.01)).
  - apply Rmult_lt_0_compat; lra.
  - replace (2 * ry / (ry + rx + 0.01) * ((ry + rx + 0.01) * (ry' + rx' + 0.01)))
      with (2 * ry * (ry' + rx' + 0.01)) by (field; lra).
    replace (2 * ry' / (ry' + rx' + 0.01) * ((ry + rx + 0.01) * (ry' + rx' + 0.01)))
      with (2 * ry' * (ry + rx + 0.01)) by (field; lra).
    nra.
Qed.

(** The same in binary64: equal radii of [0.005] give one half, and equal
    radii of [1e16], against which the offset is rounded away, give exactly
    one. *)
Lemma b64_aspect_ratio_circle :
  b64_aspect_ratio 0.005 0.005 0.01 = 0.5%float /\
  b64_aspect_ratio 1e16 1e16 0.01 = 1%float.
Proof. split; vm_compute; reflexivity. Qed.

(** C6, amended: for equal radii [r > 0], up to [max_radius], the ratio
    under the default offset is [2r / (2r + 0.01)] to within [1e-15], a
    positive number that never exceeds one; it is not one within a
    tolerance, being at most [0.996] as long as [r <= 1], and comes within
    [0.001] of one from [r = 5] on; with a zero offset it is exactly one. *)
Theorem aspect_ratio_circle (r : R) :
  0 < r -> r <= max_radius ->
  exists a,
    aspect_ratio (Fin r) (Fin r) default_offset = Fin a /\
    Rabs (a - 2 * r / (2 * r + 0.01)) <= 1e-15 /\
    0 < a <= 1 /\
    (r <= 1 -> a <= 0.996) /\
    (5 <= r -> 0.999 <= a) /\
    aspect_ratio (Fin r) (Fin r) (Fin 0) = Fin 1.
Proof.
  intros Hr _. unfold default_offset. rewrite !aspect_ratio_fin by lra.
  eexists. split; [reflexivity |].
  assert (Hd : 0 < r + r + 0.01) by lra.
  assert (Hq : 2 * r / (r + r + 0.01) * (r + r + 0.01) = 2 * r) by (field; lra).
  split.
  { replace (2 * r + 0.01) with (r + r + 0.01) by lra.
    unfold Rminus. rewrite Rplus_opp_r, Rabs_R0. lra. }
  set (q := 2 * r / (r + r + 0.01)) in *.
  repeat split.
  - apply Rmult_lt_reg_r with (r + r + 0.01); [exact Hd |]. rewrite Hq. lra.
  - apply Rmult_le_reg_r with (r + r + 0.01); [exact Hd |]. rewrite Hq. lra.
  - intros H1. apply Rmult_le_reg_r with (r + r + 0.01); [exact Hd |]. rewrite Hq. lra.
  - intros H5. apply Rmult_le_reg_r with (r + r + 0.01); [exact Hd |]. rewrite Hq. lra.
  - f_equal. field. lra.
Qed.

Lemma aspect_ratio_circle_witness :
  exists a,
    aspect_ratio (Fin 5) (Fin 5) default_offset = Fin a /\
    Rabs (a - 2 * 5 / (2 * 5 + 0.01)) <= 1e-15 /\
    0 < a <= 1 /\
    (5 <= 1 -> a <= 0.996) /\
    (5 <= 5 -> 0.999 <= a) /\
    aspect_ratio (Fin 5) (Fin 5) (Fin 0) = Fin 1.
Proof. apply (aspect_ratio_circle 5); unfold max_radius; lra. Defined.

(** C7, as stated, fails at [ry = 0]: the ratio is then zero whatever [rx]
    is, so it does not strictly decrease in [rx]. *)
Lemma aspect_ratio_flat_at_zero :
  aspect_ratio (Fin 0) (Fin 0) default_offset = Fin 0 /\
  aspect_ratio (Fin 0) (Fin 1) default_offset = Fin 0 /\
  ~ Flt (aspect_ratio (Fin 0) (Fin 1) default_offset)
        (aspect_ratio (Fin 0) (Fin 0) default_offset).
Proof.
  unfold default_offset. rewrite !aspect_ratio_fin by lra.
  replace (2 * 0 / (0 + 0 + 0.01)) with 0 by lra.
  replace (2 * 0 / (0 + 1 + 0.01)) with 0 by lra.
  repeat split. simpl. lra.
Qed.

(** Nor is the ratio strict away from zero once it is computed in binary64:
    at [ry = rx = 1] the next [rx] above gives the same ratio, and at
    [ry = 4.281049501012619], [rx = 2.3327144325165965] the next [ry] above
    gives a smaller one. *)
Lemma b64_aspect_ratio_not_strict :
  b64_aspect_ratio 1 0x1.0000000000001p+0 0.01 = b64_aspect_ratio 1 1 0.01 /\
  PrimFloat.ltb 0x1.11fcb70bda012p+2 0x1.11fcb70bda013p+2 = true /\
  PrimFloat.ltb (b64_aspect_ratio 0x1.11fcb70bda013p+2 0x1.2a9662f348721p+1 0.01)
                (b64_aspect_ratio 0x1.11fcb70bda012p+2 0x1.2a9662f348721p+1 0.01)
  = true.
Proof. repeat split; vm_compute; reflexivity. Qed.

(** C7, amended: on non-negative radii up to [max_radius] the ratio never
    rises when [rx] grows at fixed [ry]; when [ry] grows at fixed [rx] it
    rises or, by the rounding of the quotient, stays within [1e-14] below
    where it was; at [ry = 0] it is zero for every [rx]. *)
Theorem aspect_ratio_monotone (ry ry' rx rx' : R) :
  0 <= ry -> ry <= ry' -> ry' <= max_radius ->
  0 <= rx -> rx <= rx' -> rx' <= max_radius ->
  exists a a_y a_x,
    aspect_ratio (Fin ry) (Fin rx) default_offset = Fin a /\
    aspect_ratio (Fin ry') (Fin rx) default_offset = Fin a_y /\
    aspect_ratio (Fin ry) (Fin rx') default_offset = Fin a_x /\
    a - 1e-14 <= a_y /\
    a_x <= a /\
    aspect_ratio (Fin 0) (Fin rx) default_offset = Fin 0 /\
    aspect_ratio (Fin 0) (Fin rx') default_offset = Fin 0.
Proof.
  intros Hy Hyy _ Hx Hxx _. unfold default_offset.
  rewrite !aspect_ratio_fin by lra.
  eexists _, _, _. split; [reflexivity |]. split; [reflexivity |].
  split; [reflexivity |].
  pose proof (aspect_ratio_quotient_le ry ry' rx rx Hy Hyy Hx ltac:(lra)) as Hup.
  pose proof (aspect_ratio_quotient_le ry ry rx' rx Hy ltac:(lra) Hx Hxx) as Hdown.
  repeat split; try lra; f_equal; lra.
Qed.

Lemma aspect_ratio_monotone_witness :
  exists a a_y a_x,
    aspect_ratio (Fin 1) (Fin 1) default_offset = Fin a /\
    aspect_ratio (Fin 2) (Fin 1) default_offset = Fin a_y /\
    aspect_ratio (Fin 1) (Fin 3) default_offset = Fin a_x /\
    a - 1e-14 <= a_y /\
    a_x <= a /\
    aspect_ratio (Fin 0) (Fin 1) default_offset = Fin 0 /\
    aspect_ratio (Fin 0) (Fin 3) default_offset = Fin 0.
Proof. apply (aspect_ratio_monotone 1 2 1 3); unfold max_radius; lra. Defined.

(** ** Arithmetic of [float64] *)

Lemma Fadd_comm (a b : float64) : Fadd a b = Fadd b a.
Proof.
  destruct a as [x|[]|], b as [y|[]|]; simpl; try reflexivity.
  f_equal. lra.
Qed.

Lemma Fmul_scale_add (c : R) (a b : float64) :
  0 < c ->
  Fmul (Fin c) (Fadd a b) = Fadd (Fmul (Fin c) a) (Fmul (Fin c) b).
Proof.
  intros Hc.
  destruct a as [x|[]|], b as [y|[]|]; simpl; rdec; simpl; try reflexivity.
  f_equal. lra.
Qed.

Lemma np_sum_scale (c : R) (a : list float64) :
  0 < c -> np_sum (map (Fmul (Fin c)) a) = Fmul (Fin c) (np_sum a).
Proof.
  intros Hc. unfold np_sum. induction a as [|v a IH]; simpl.
  - f_equal. lra.
  - rewrite IH. symmetry. apply Fmul_scale_add. exact Hc.
Qed.

Lemma Fdiv_scale (c : R) (a b : float64) :
  0 < c -> Fdiv (Fmul (Fin c) a) (Fmul (Fin c) b) = Fdiv a b.
Proof.
  intros Hc.
  assert (Hz : forall v, c * v = 0 <-> v = 0) by (intros v; split; intros; nra).
  assert (Hn : forall v, c * v < 0 <-> v < 0) by (intros v; split; intros; nra).
  destruct a as [x|[]|], b as [y|[]|]; simpl; rdec; simpl; rdec;
    repeat match goal with
           | H : c * _ = 0 |- _ => apply (proj1 (Hz _)) in H
           | H : c * ?v <> 0 |- _ =>
               assert (v <> 0) by (intros ?; apply H; apply Hz; assumption); clear H
           | H : c * _ < 0 |- _ => apply (proj1 (Hn _)) in H
           | H : ~ c * ?v < 0 |- _ =>
               assert (~ v < 0) by (intros ?; apply H; apply Hn; assumption); clear H
           end;
    try reflexivity; try contradiction; try lra.
  f_equal. field. lra.
Qed.

(** ** [fitMVGaus]: what happens to the caller's [lam] *)

Section FitFacts.

Variable eig_finite : (R * R) * (R * R) -> (R * R) * ((R * R) * (R * R)).

Lemma normalize_inplace_scale (c : R) (lam : list float64) :
  0 < c -> normalize_inplace (map (Fmul (Fin c)) lam) = normalize_inplace lam.
Proof.
  intros Hc. unfold normalize_inplace.
  rewrite np_sum_scale by exact Hc. rewrite map_map.
  apply map_ext. intros l. apply Fdiv_scale. exact Hc.
Qed.

(** C9, amended: multiplying every weight by a power of two [2^k], [k]
    between [-100] and [100], changes nothing of what the fit returns when
    the weights are zero or of a magnitude between [min_weight] and
    [max_weight]: mean, covariance, radii and boundary points are the same,
    and so is the normalized weight array the call leaves behind.  Such a
    factor changes no mantissa, and nothing overflows or underflows. *)
Theorem fitMVGaus_scale_invariant (y x : list float64) (rl : list R) (k : Z)
    (thres : float64) (npts : Z) :
  (-100 <= k <= 100)%Z ->
  Forall (fun w => w = 0 \/ min_weight <= Rabs w <= max_weight) rl ->
  fitMVGaus eig_finite y x (map (Fmul (Fin (powerRZ 2 k))) (map Fin rl)) thres npts
  = fitMVGaus eig_finite y x (map Fin rl) thres npts.
Proof.
  intros _ _. unfold fitMVGaus.
  rewrite normalize_inplace_scale by (apply powerRZ_lt; lra). reflexivity.
Qed.

End FitFacts.

(** ** [fitMVGaus] on weights that sum to zero *)

Lemma Fdiv_zero_not_finite (l : float64) : isfinite (Fdiv l (Fin 0)) = false.
Proof. destruct l as [x|s|]; simpl; rdec; reflexivity. Qed.

Lemma Fsqrt_not_finite (a : float64) :
  isfinite a = false -> pos_inf_or_nan (Fsqrt a).
Proof.
  unfold pos_inf_or_nan. destruct a as [x|[]|]; simpl; intros H; try discriminate; auto.
Qed.

Lemma Fmul_not_finite_r (v a : float64) :
  pos_inf_or_nan a -> isfinite (Fmul v a) = false.
Proof.
  intros [-> | ->]; destruct v as [x|s|]; simpl; rdec; reflexivity.
Qed.

Lemma Fmul_self_not_finite (e : float64) :
  isfinite e = false -> pos_inf_or_nan (Fmul e e).
Proof.
  unfold pos_inf_or_nan. destruct e as [x|[]|]; simpl; intros H; try discriminate; auto.
Qed.

Lemma Fadd_pos_inf_or_nan (a b : float64) :
  pos_inf_or_nan a -> b = Fin 0 \/ pos_inf_or_nan b -> pos_inf_or_nan (Fadd a b).
Proof.
  unfold pos_inf_or_nan. intros [-> | ->] [-> | [-> | ->]]; simpl; auto.
Qed.

Lemma np_sum_pos_inf_or_nan (a : list float64) :
  Forall pos_inf_or_nan a -> a = [] \/ pos_inf_or_nan (np_sum a).
Proof.
  induction 1 as [|v a Hv _ IH]; [left; reflexivity | right].
  simpl. apply Fadd_pos_inf_or_nan; [exact Hv |].
  destruct IH as [-> | IH]; [left; reflexivity | right; exact IH].
Qed.

Lemma normalize_inplace_length (lam : list float64) :
  length (normalize_inplace lam) = length lam.
Proof. unfold normalize_inplace. apply length_map. Qed.

Lemma normalize_inplace_zero_sum (lam : list float64) :
  np_sum lam = Fin 0 ->
  Forall (fun l => isfinite l = false) (normalize_inplace lam).
Proof.
  intros Hs. unfold normalize_inplace. rewrite Hs.
  apply Forall_map. apply Forall_forall. intros l _. apply Fdiv_zero_not_finite.
Qed.

Lemma weighted_centered_not_finite (c w : list float64) :
  Forall (fun l => isfinite l = false) w ->
  Forall (fun e => isfinite e = false) (zip_with Fmul c (map Fsqrt w)).
Proof.
  intros Hw. revert c. induction Hw as [|l w Hl _ IH]; intros [|v c]; simpl;
    try constructor.
  - apply Fmul_not_finite_r, Fsqrt_not_finite, Hl.
  - apply IH.
Qed.

Lemma dot_self_not_finite (e : list float64) :
  e <> [] -> Forall (fun v => isfinite v = false) e -> isfinite (dot e e) = false.
Proof.
  intros Hne He. unfold dot.
  assert (Hsq : Forall pos_inf_or_nan (zip_with Fmul e e)).
  { clear Hne. induction He as [|v e Hv _ IH]; simpl; constructor.
    - apply Fmul_self_not_finite, Hv.
    - exact IH. }
  destruct (np_sum_pos_inf_or_nan _ Hsq) as [H | [-> | ->]]; try reflexivity.
  destruct e; [congruence | discriminate].
Qed.

Lemma broadcast_same_length f (a b : list float64) :
  length a = length b -> broadcast f a b = Ok (zip_with f a b).
Proof. intros H. unfold broadcast. rewrite decide_True by exact H. reflexivity. Qed.

Lemma np_linalg_eig_not_finite eig_finite (a00 a01 a10 a11 : float64) :
  isfinite a00 = false ->
  np_linalg_eig eig_finite ((a00, a01), (a10, a11))
  = Raise (LinAlgError "Array must not contain infs or NaNs").
Proof. destruct a00; simpl; intros H; try discriminate; reflexivity. Qed.

#[local] Arguments np_linalg_eig : simpl never.
#[local] Arguments np_linspace : simpl never.
#[local] Arguments dot : simpl never.
#[local] Arguments Fmul : simpl never.
#[local] Arguments Fsqrt : simpl never.
#[local] Arguments Fmaximum : simpl never.
#[local] Arguments sort_descending : simpl never.

Section ZeroWeights.

Variable eig_finite : (R * R) * (R * R) -> (R * R) * ((R * R) * (R * R)).

(** C2, amended: on arrays of one common, positive length whose weights sum
    to zero, [fitMVGaus] ends in an exception: every normalized weight is an
    infinity or not-a-number, so is the covariance, and [np.linalg.eig]
    refuses it. *)
Theorem fitMVGaus_zero_weights_raises (y x lam : list float64)
    (thres : float64) (npts : Z) :
  length y = length lam ->
  length x = length lam ->
  lam <> [] ->
  np_sum lam = Fin 0 ->
  (fitMVGaus eig_finite y x lam thres npts).2
  = Raise (LinAlgError "Array must not contain infs or NaNs").
Proof.
  intros Hy Hx Hne Hs. unfold fitMVGaus. simpl.
  pose proof (normalize_inplace_zero_sum lam Hs) as Hnf.
  pose proof (normalize_inplace_length lam) as Hlen.
  set (w := normalize_inplace lam) in *.
  unfold fit_normalized, stack2.
  rewrite decide_True by congruence. simpl.
  rewrite !broadcast_same_length by (rewrite ?length_map; congruence). simpl.
  rewrite !broadcast_same_length by (rewrite ?length_map; congruence). simpl.
  rewrite np_linalg_eig_not_finite; [reflexivity |].
  apply dot_self_not_finite.
  - destruct y as [|y0 y]; [destruct lam; [congruence | discriminate] |].
    destruct w as [|w0 w]; [destruct lam; simpl in *; [congruence | discriminate] |].
    discriminate.
  - apply weighted_centered_not_finite, Hnf.
Qed.

End ZeroWeights.

Lemma fitMVGaus_zero_weights_raises_witness :
  (fitMVGaus eig_symmetric [Fin 1; Fin 2] [Fin 3; Fin 4] [Fin 0; Fin 0]
             default_thres default_npts).2
  = Raise (LinAlgError "Array must not contain infs or NaNs").
Proof.
  apply fitMVGaus_zero_weights_raises;
    [reflexivity | reflexivity | discriminate | simpl; f_equal; lra].
Defined.

Lemma np_linspace_returns (start stop : R) (num : Z) :
  (0 <= num)%Z -> returns (np_linspace start stop num).
Proof.
  intros H. unfold np_linspace.
  destruct (Z.ltb_spec num 0); [lia | exact I].
Qed.

Lemma radius_of_zero (thres : R) :
  Fmul (Fin thres) (Fsqrt (Fmaximum (Fin 0) (Fin 0))) = Fin 0.
Proof.
  unfold Fmaximum, Fleb. destruct (Rleb 0 0); unfold Fsqrt, Fmul; rdec;
    rewrite sqrt_0; f_equal; lra.
Qed.

Lemma sort_descending_same (v : float64) : sort_descending (v, v) = (v, v).
Proof. unfold sort_descending. simpl. destruct (Fleb v v); reflexivity. Qed.

(** C2, as stated, fails on the empty arrays: their weights sum to zero,
    nothing is divided, the covariance is the zero matrix, and the fit
    returns an ellipse that is all zeros, with no exception. *)
Lemma fitMVGaus_empty_returns :
  np_sum [] = Fin 0 /\
  exists e, (fitMVGaus eig_symmetric [] [] [] default_thres default_npts).2 = Ok e /\
            mu e = (Fin 0, Fin 0) /\
            cov e = ((Fin 0, Fin 0), (Fin 0, Fin 0)) /\
            radii e = (Fin 0, Fin 0).
Proof.
  split; [reflexivity |].
  unfold fitMVGaus, fit_normalized, default_npts, default_thres. simpl.
  unfold dot, np_linalg_eig, eig_symmetric. simpl.
  destruct (Req_dec_T 0 0) as [_ | H]; [| contradiction].
  pose proof (np_linspace_returns 0 (2 * PI) 100 ltac:(lia)) as Hl.
  destruct (np_linspace 0 (2 * PI) 100) as [theta | ?]; [| contradiction].
  cbn [mbind result_bind fst snd].
  rewrite radius_of_zero, sort_descending_same.
  eexists. split; [reflexivity |]. simpl. repeat split.
Qed.

(** ** [fitMVGaus] and its argument [lam] *)

(** C1 fails on the code.  On the unit square with unit weights the call
    leaves [0.25] in every cell of the caller's [lam] array, which held [1]. *)
Theorem fitMVGaus_changes_lam :
  (fitMVGaus eig_symmetric [Fin 0; Fin 0; Fin 1; Fin 1] [Fin 0; Fin 1; Fin 0; Fin 1]
             [Fin 1; Fin 1; Fin 1; Fin 1] default_thres default_npts).1
  = [Fin 0.25; Fin 0.25; Fin 0.25; Fin 0.25] /\
  [Fin 0.25; Fin 0.25; Fin 0.25; Fin 0.25] <> [Fin 1; Fin 1; Fin 1; Fin 1].
Proof.
  split.
  - unfold fitMVGaus, normalize_inplace. simpl. rdec.
    repeat f_equal; lra.
  - intros H. injection H as H _. lra.
Qed.

(** The same through the frozen [ROI]: reading [radii] changes the ROI's
    [lam]. *)
Lemma ROI_radii_changes_lam (rs : list float64) :
  lam (ROI_radii eig_symmetric
         (mkROI [0; 0; 1; 1]%Z [0; 1; 0; 1]%Z [Fin 1; Fin 1; Fin 1; Fin 1]
                (Some 1%Z) (Some 1%Z) rs)).1
  = [Fin 0.25; Fin 0.25; Fin 0.25; Fin 0.25].
Proof.
  unfold ROI_radii, calc_radii, fitMVGaus, normalize_inplace. simpl. rdec.
  repeat f_equal; lra.
Qed.

(** C9, as stated, fails in binary64.  With the weights [(1, 3)] and the
    factor [0.1] the rescaled weights normalize to
    [(0.25, 0.7500000000000001)], not to [(0.25, 0.75)], and for the
    coordinates [(0, 1)] the mean the fit returns differs in the last
    place. *)
Lemma fitMVGaus_scale_changes_mean :
  b64_normalize_inplace (b64_scale 0.1 (1, 3)%float)
  = (0.25, 0.7500000000000001)%float /\
  b64_normalize_inplace (1, 3)%float = (0.25, 0.75)%float /\
  b64_weighted_sum (b64_normalize_inplace (b64_scale 0.1 (1, 3)%float)) (0, 1)%float
  = 0.7500000000000001%float /\
  b64_weighted_sum (b64_normalize_inplace (1, 3)%float) (0, 1)%float = 0.75%float /\
  PrimFloat.eqb
    (b64_weighted_sum (b64_normalize_inplace (b64_scale 0.1 (1, 3)%float)) (0, 1)%float)
    (b64_weighted_sum (b64_normalize_inplace (1, 3)%float) (0, 1)%float)
  = false.
Proof. repeat split; vm_compute; reflexivity. Qed.

(** A power of two as factor leaves the binary64 result as it is. *)
Lemma b64_scale_power_of_two :
  b64_normalize_inplace (b64_scale 0.125 (1, 3)%float)
  = b64_normalize_inplace (1, 3)%float.
Proof. vm_compute. reflexivity. Qed.

Lemma fitMVGaus_scale_invariant_witness :
  fitMVGaus eig_symmetric [Fin 0; Fin 1] [Fin 1; Fin 0]
            (map (Fmul (Fin (powerRZ 2 (-3)))) (map Fin [1; 3])) default_thres default_npts
  = fitMVGaus eig_symmetric [Fin 0; Fin 1] [Fin 1; Fin 0] (map Fin [1; 3])
              default_thres default_npts.
Proof.
  apply fitMVGaus_scale_invariant.
  - lia.
  - unfold min_weight, max_weight.
    assert (H : forall w, 1 <= w <= 3 -> w = 0 \/ 1e-100 <= Rabs w <= 1e100)
      by (intros w Hw; right; rewrite Rabs_pos_eq by lra; lra).
    constructor; [apply H; lra |]. constructor; [apply H; lra |]. constructor.
Defined.

(** ** [fitMVGaus] on well-formed input *)

Lemma np_sum_fin (a : list R) : np_sum (map Fin a) = Fin (Rsum a).
Proof.
  unfold np_sum, Rsum. induction a as [|v a IH]; simpl; [reflexivity |].
  rewrite IH. reflexivity.
Qed.

Lemma zip_with_Fmul_fin (a b : list R) :
  zip_with Fmul (map Fin a) (map Fin b) = map Fin (zip_with Rmult a b).
Proof.
  revert b. induction a as [|u a IH]; intros [|v b]; simpl; try reflexivity.
  rewrite IH. reflexivity.
Qed.

Lemma dot_fin (a b : list R) :
  dot (map Fin a) (map Fin b) = Fin (Rsum (zip_with Rmult a b)).
Proof. unfold dot. rewrite zip_with_Fmul_fin. apply np_sum_fin. Qed.

Lemma normalize_inplace_fin (rl : list R) :
  Rsum rl <> 0 ->
  normalize_inplace (map Fin rl) = map Fin (map (fun l => l / Rsum rl) rl).
Proof.
  intros Hs. unfold normalize_inplace. rewrite np_sum_fin, !map_map.
  apply map_ext. intros l. unfold Fdiv. rdec. reflexivity.
Qed.

Lemma map_Fsqrt_fin (w : list R) :
  Forall (fun l => 0 <= l) w -> map Fsqrt (map Fin w) = map Fin (map sqrt w).
Proof.
  intros Hw. rewrite !map_map. induction Hw as [|l w Hl _ IH]; simpl; [reflexivity |].
  rewrite IH. f_equal. unfold Fsqrt. rdec. reflexivity.
Qed.

Lemma map_Fsub_fin (m : R) (a : list R) :
  map (fun v => Fsub v (Fin m)) (map Fin a) = map Fin (map (fun v => v + - m) a).
Proof. rewrite !map_map. reflexivity. Qed.

Section FitReturns.

Variable eig_finite : (R * R) * (R * R) -> (R * R) * ((R * R) * (R * R)).

(** On finite coordinates and non-negative finite weights of one common
    length whose sum is positive, with a non-negative number of boundary
    points, the fit returns an ellipse. *)
Lemma fitMVGaus_returns (ry rx rl : list R) (thres : float64) (npts : Z) :
  length ry = length rl ->
  length rx = length rl ->
  Forall (fun l => 0 <= l) rl ->
  0 < Rsum rl ->
  (0 <= npts)%Z ->
  returns (fitMVGaus eig_finite (map Fin ry) (map Fin rx) (map Fin rl) thres npts).2.
Proof.
  intros Hy Hx Hl Hs Hn. unfold fitMVGaus. cbn [snd].
  rewrite normalize_inplace_fin by lra.
  assert (Hw : Forall (fun l => 0 <= l) (map (fun l => l / Rsum rl) rl)).
  { apply Forall_map. eapply Forall_impl; [exact Hl |].
    intros l Hl0. simpl. apply Rmult_le_pos; [exact Hl0 |].
    apply Rlt_le, Rinv_0_lt_compat, Hs. }
  set (w := map (fun l => l / Rsum rl) rl) in *.
  assert (Hlw : length w = length rl) by apply length_map.
  unfold fit_normalized, stack2.
  rewrite decide_True by (rewrite !length_map; congruence).
  cbn [mbind result_bind fst snd].
  rewrite !broadcast_same_length by (rewrite !length_map; congruence).
  cbn [mbind result_bind fst snd].
  rewrite !zip_with_Fmul_fin, !np_sum_fin, !map_Fsub_fin, (map_Fsqrt_fin w Hw).
  rewrite !broadcast_same_length by (rewrite !length_map; congruence).
  cbn [mbind result_bind fst snd].
  rewrite !zip_with_Fmul_fin, !dot_fin.
  unfold np_linalg_eig.
  destruct (eig_finite _) as [[w0 w1] [[v00 v01] [v10 v11]]].
  cbn [mbind result_bind fst snd].
  pose proof (np_linspace_returns 0 (2 * PI) npts Hn) as Ht.
  destruct (np_linspace 0 (2 * PI) npts) as [theta|]; [| contradiction].
  exact I.
Qed.

End FitReturns.

(** ** [np_sort] sorts *)

Lemma Fleb_total (a b : float64) : Fleb a b = false -> Fleb b a = true.
Proof.
  destruct a as [x|[]|], b as [y|[]|]; simpl; try discriminate; try reflexivity.
  rdec; intros; try discriminate; reflexivity.
Qed.

Lemma sort_insert_perm (v : float64) (a : list float64) :
  Permutation (sort_insert v a) (v :: a).
Proof.
  induction a as [|w a IH]; simpl; [reflexivity |].
  destruct (Fleb v w); [reflexivity |].
  rewrite IH. apply perm_swap.
Qed.

Lemma np_sort_perm (a : list float64) : Permutation (np_sort a) a.
Proof.
  induction a as [|v a IH]; simpl; [reflexivity |].
  rewrite sort_insert_perm. constructor. exact IH.
Qed.

Lemma np_sort_length (a : list float64) : length (np_sort a) = length a.
Proof. apply Permutation_length, np_sort_perm. Qed.

Lemma sort_insert_hdrel (u v : float64) (a : list float64) :
  Fleb_rel u v -> HdRel Fleb_rel u a -> HdRel Fleb_rel u (sort_insert v a).
Proof.
  intros Huv Hu. destruct a as [|w a]; simpl.
  - constructor. exact Huv.
  - destruct (Fleb v w); constructor; [exact Huv |].
    inversion Hu; assumption.
Qed.

Lemma sort_insert_sorted (v : float64) (a : list float64) :
  Sorted Fleb_rel a -> Sorted Fleb_rel (sort_insert v a).
Proof.
  induction 1 as [|w a Hs IH Hw]; simpl.
  - repeat constructor.
  - destruct (Fleb v w) eqn:E.
    + constructor; [constructor; assumption |]. constructor. exact E.
    + constructor; [exact IH |].
      apply sort_insert_hdrel; [apply Fleb_total, E | exact Hw].
Qed.

Lemma np_sort_sorted (a : list float64) : Sorted Fleb_rel (np_sort a).
Proof.
  induction a as [|v a IH]; simpl; [constructor |].
  apply sort_insert_sorted, IH.
Qed.

Lemma Fleb_rel_finite (a b : float64) :
  isfinite a = true -> isfinite b = true -> Fleb_rel a b -> Fle a b.
Proof.
  destruct a as [x| |], b as [y| |]; simpl; try discriminate.
  intros _ _. unfold Fleb_rel. simpl. rdec; try discriminate.
Qed.

Lemma Sorted_Fleb_finite (a : list float64) :
  Forall (fun v => isfinite v = true) a -> Sorted Fleb_rel a -> Sorted Fle a.
Proof.
  intros Hf Hs. induction Hs as [|v a Hs IH Hv]; [constructor |].
  inversion Hf as [|? ? Hfv Hfa]; subst.
  constructor; [apply IH, Hfa |].
  destruct Hv as [|w a Hvw]; constructor.
  inversion Hfa; subst. apply Fleb_rel_finite; assumption.
Qed.

Lemma Fle_trans : Transitive Fle.
Proof.
  intros [x|[]|] [y|[]|] [z|[]|]; simpl; try tauto; try lra;
    try (intros [|]; congruence); try congruence.
Qed.

Lemma Sorted_Fle_head_least (v : float64) (a : list float64) :
  Sorted Fle (v :: a) -> forall w, In w a -> Fle v w.
Proof.
  intros Hs. apply Sorted_StronglySorted in Hs; [| exact Fle_trans].
  inversion Hs as [|? ? _ Hall]; subst.
  intros w Hw. rewrite Forall_forall in Hall. apply Hall.
  apply list_elem_of_In. exact Hw.
Qed.

Lemma Sorted_Fle_last_greatest (a : list float64) (v w : float64) :
  Sorted Fle a -> last a = Some v -> In w a -> w = v \/ Fle w v.
Proof.
  intros Hs. apply Sorted_StronglySorted in Hs; [| exact Fle_trans].
  induction Hs as [|u a Hs IH Hall]; intros Hl Hw; [destruct Hw |].
  destruct a as [|u' a].
  - simpl in Hl. destruct Hw as [-> | []]. left. congruence.
  - change (last (u :: u' :: a)) with (last (u' :: a)) in Hl.
    destruct Hw as [-> | Hw].
    + right. rewrite Forall_forall in Hall. apply Hall.
      apply list_elem_of_In.
      destruct (proj1 (last_Some _ _) Hl) as [pre Hpre].
      rewrite Hpre. apply in_or_app. right. left. reflexivity.
    + apply IH; assumption.
Qed.

(** ** The radial reference table *)

Lemma np_arange_length (lo hi : Z) : length (np_arange lo hi) = Z.to_nat (hi - lo).
Proof. unfold np_arange. rewrite length_map, length_seq. reflexivity. Qed.

Lemma np_arange_In (lo hi z : Z) : In z (np_arange lo hi) <-> (lo <= z < hi)%Z.
Proof.
  unfold np_arange. rewrite in_map_iff. split.
  - intros (i & <- & Hi). apply in_seq in Hi. lia.
  - intros H. exists (Z.to_nat (z - lo)). split; [lia |]. apply in_seq. lia.
Qed.

Lemma hypot2_fin (a b : R) : hypot2 (Fin a) (Fin b) = Fin (sqrt (a * a + b * b)).
Proof.
  unfold hypot2, Fmul, Fadd, Fsqrt, Rneg.
  destruct (Rlt_dec (a * a + b * b) 0); [nra | reflexivity].
Qed.

Lemma sqrt_corner (r : R) : 0 <= r -> sqrt (r * r + r * r) = r * sqrt 2.
Proof.
  intros Hr. replace (r * r + r * r) with (r * r * 2) by lra.
  rewrite sqrt_mult by nra. rewrite sqrt_square by exact Hr. reflexivity.
Qed.

Lemma grid_length {A B C} (f : A -> B -> C) (d' : list A) (d : list B) :
  length (concat (map (fun yi => map (f yi) d) d')) = (length d' * length d)%nat.
Proof.
  induction d' as [|yi d' IH]; simpl; [reflexivity |].
  rewrite length_app, length_map, IH. reflexivity.
Qed.

Lemma distance_kernel_length (radius : Z) :
  (0 <= radius)%Z ->
  length (flatten (distance_kernel radius)) = Z.to_nat ((2 * radius + 1) ^ 2).
Proof.
  intros H. unfold flatten, distance_kernel.
  rewrite (grid_length (fun yi xj => hypot2 (of_int xj) (of_int yi))).
  rewrite np_arange_length. rewrite Z.pow_2_r.
  rewrite Z2Nat.inj_mul by lia. f_equal; f_equal; lia.
Qed.

Lemma distance_kernel_In (radius : Z) (e : float64) :
  In e (flatten (distance_kernel radius)) <->
  exists yi xj, (- radius <= yi <= radius)%Z /\ (- radius <= xj <= radius)%Z /\
                e = Fin (sqrt (IZR xj * IZR xj + IZR yi * IZR yi)).
Proof.
  unfold flatten, distance_kernel. rewrite in_concat. split.
  - intros (row & Hrow & He). apply in_map_iff in Hrow as (yi & <- & Hyi).
    apply in_map_iff in He as (xj & <- & Hxj).
    apply np_arange_In in Hyi, Hxj.
    exists yi, xj. repeat split; try lia. apply hypot2_fin.
  - intros (yi & xj & Hyi & Hxj & ->).
    exists (map (fun xj => hypot2 (of_int xj) (of_int yi))
                (np_arange (- radius) (radius + 1))).
    split.
    + apply in_map_iff. exists yi. split; [reflexivity |]. apply np_arange_In. lia.
    + apply in_map_iff. exists xj. split; [apply hypot2_fin |]. apply np_arange_In. lia.
Qed.

Lemma radial_reference_In (radius : Z) (e : float64) :
  In e (radial_reference radius) <-> In e (flatten (distance_kernel radius)).
Proof.
  unfold radial_reference. split; apply Permutation_in;
    [apply np_sort_perm | symmetry; apply np_sort_perm].
Qed.

Lemma radial_reference_bounds (radius : Z) (e : float64) :
  (0 <= radius)%Z ->
  In e (radial_reference radius) ->
  exists s, e = Fin s /\ 0 <= s <= IZR radius * sqrt 2.
Proof.
  intros HR He. apply radial_reference_In, distance_kernel_In in He.
  destruct He as (yi & xj & Hyi & Hxj & ->). eexists. split; [reflexivity |].
  split; [apply sqrt_pos |].
  rewrite <- sqrt_corner by (apply IZR_le in HR; exact HR).
  apply sqrt_le_1_alt.
  assert (Hsq : forall z, (- radius <= z <= radius)%Z ->
                          IZR z * IZR z <= IZR radius * IZR radius).
  { intros z [Hlo Hhi]. apply IZR_le in Hlo, Hhi. rewrite opp_IZR in Hlo. nra. }
  pose proof (Hsq _ Hyi). pose proof (Hsq _ Hxj). lra.
Qed.

Lemma radial_reference_sorted (radius : Z) :
  (0 <= radius)%Z -> Sorted Fle (radial_reference radius).
Proof.
  intros HR. apply Sorted_Fleb_finite; [| apply np_sort_sorted].
  apply Forall_forall. intros e He. apply list_elem_of_In in He.
  destruct (radial_reference_bounds radius e HR He) as (s & -> & _). reflexivity.
Qed.

Lemma radial_reference_length (radius : Z) :
  (0 <= radius)%Z ->
  length (radial_reference radius) = Z.to_nat ((2 * radius + 1) ^ 2).
Proof.
  intros HR. unfold radial_reference.
  rewrite np_sort_length. apply distance_kernel_length, HR.
Qed.

(** C5: for a positive radius [R] the radial reference table has
    [(2R+1)^2] entries and is sorted non-decreasing; its first (least) entry
    is [0], its last (greatest) entry is [R * sqrt 2], and every entry lies
    between the two. *)
Theorem radial_reference_table (radius : Z) :
  (0 < radius)%Z ->
  length (radial_reference radius) = Z.to_nat ((2 * radius + 1) ^ 2) /\
  Sorted Fle (radial_reference radius) /\
  head (radial_reference radius) = Some (Fin 0) /\
  last (radial_reference radius) = Some (Fin (IZR radius * sqrt 2)) /\
  Forall (fun e => Fle (Fin 0) e /\ Fle e (Fin (IZR radius * sqrt 2)))
         (radial_reference radius).
Proof.
  intros Hpos. assert (HR : (0 <= radius)%Z) by lia.
  pose proof (radial_reference_length radius HR) as Hlen.
  pose proof (radial_reference_sorted radius HR) as Hs.
  pose proof (radial_reference_bounds radius) as Hb.
  assert (Hzero : In (Fin 0) (radial_reference radius)).
  { apply radial_reference_In, distance_kernel_In. exists 0%Z, 0%Z.
    repeat split; try lia. f_equal. rewrite Rmult_0_l, Rplus_0_l, sqrt_0. reflexivity. }
  assert (Hcorner : In (Fin (IZR radius * sqrt 2)) (radial_reference radius)).
  { apply radial_reference_In, distance_kernel_In. exists radius, radius.
    repeat split; try lia. f_equal. symmetry. apply sqrt_corner.
    apply IZR_le in HR. exact HR. }
  set (tbl := radial_reference radius) in *.
  split; [exact Hlen |]. split; [exact Hs |]. split; [| split].
  - destruct tbl as [|h t] eqn:E; [destruct Hzero |]. simpl. f_equal.
    destruct (Hb h HR (or_introl eq_refl)) as (s & -> & Hs0 & _).
    destruct Hzero as [H0 | H0]; [exact H0 |].
    pose proof (Sorted_Fle_head_least _ _ Hs _ H0) as Hle. simpl in Hle.
    f_equal. lra.
  - destruct (last tbl) as [v|] eqn:El.
    + f_equal.
      assert (Hv : In v tbl).
      { apply last_Some in El as [pre ->]. apply in_or_app. right. left. reflexivity. }
      destruct (Hb v HR Hv) as (s & -> & _ & Hs1).
      destruct (Sorted_Fle_last_greatest _ _ _ Hs El Hcorner) as [Heq | Hle];
        [congruence |].
      simpl in Hle. f_equal. lra.
    + apply last_None in El. rewrite El in Hzero. destruct Hzero.
  - apply Forall_forall. intros e He. apply list_elem_of_In in He.
    destruct (Hb e HR He) as (s & -> & Hs0 & Hs1). simpl. split; assumption.
Qed.

Lemma radial_reference_table_witness :
  length (radial_reference 30) = Z.to_nat ((2 * 30 + 1) ^ 2) /\
  Sorted Fle (radial_reference 30) /\
  head (radial_reference 30) = Some (Fin 0) /\
  last (radial_reference 30) = Some (Fin (IZR 30 * sqrt 2)) /\
  Forall (fun e => Fle (Fin 0) e /\ Fle e (Fin (IZR 30 * sqrt 2)))
         (radial_reference 30).
Proof. apply (radial_reference_table 30). lia. Defined.

(** ** The ROI and its derived properties *)

#[local] Arguments default_rsort : simpl never.
#[local] Arguments radial_reference : simpl never.

Lemma ROI_init_ok (ypix xpix : list Z) (lam : list float64) (dx dy : option Z)
    (rs : list float64) :
  length xpix = length ypix -> length xpix = length lam ->
  ROI_init ypix xpix lam dx dy rs = Ok (mkROI ypix xpix lam dx dy rs).
Proof.
  intros H1 H2. unfold ROI_init.
  rewrite !bool_decide_eq_false_2 by (intros H; apply H; assumption). reflexivity.
Qed.

Lemma ROI_init_inv (ypix xpix : list Z) (lam : list float64) (dx dy : option Z)
    (rs : list float64) (roi : ROI) :
  ROI_init ypix xpix lam dx dy rs = Ok roi ->
  roi = mkROI ypix xpix lam dx dy rs /\
  length xpix = length ypix /\ length xpix = length lam.
Proof.
  unfold ROI_init. intros H.
  destruct (bool_decide (length xpix ≠ length ypix)) eqn:E1;
    destruct (bool_decide (length xpix ≠ length lam)) eqn:E2;
    simpl in H; try discriminate.
  apply bool_decide_eq_false in E1, E2.
  injection H as <-. repeat split.
  - destruct (decide (length xpix = length ypix)); [assumption | contradiction].
  - destruct (decide (length xpix = length lam)); [assumption | contradiction].
Qed.

Lemma zip_with_map_map {A B} (f : float64 -> float64 -> float64)
    (g : A -> float64) (h : B -> float64) (a : list A) (b : list B) :
  zip_with f (map g a) (map h b) = map (fun p => f (g p.1) (h p.2)) (zip a b).
Proof.
  revert b. induction a as [|u a IH]; intros [|v b]; simpl; try reflexivity.
  f_equal. apply IH.
Qed.

Lemma mean_r_squared_same_length (y x : list float64) estimator :
  length y = length x ->
  mean_r_squared y x estimator
  = Ok (np_mean (zip_with hypot2 (map (fun v => Fsub v (estimator y)) y)
                                 (map (fun v => Fsub v (estimator x)) x))).
Proof.
  intros H. unfold mean_r_squared, stack2.
  rewrite decide_True by (rewrite !length_map; exact H). reflexivity.
Qed.

Lemma ROI_mean_r_squared_valid (ypix xpix : list Z) (lam : list float64)
    (dx dy : option Z) (rs : list float64) :
  length xpix = length ypix ->
  ROI_mean_r_squared (mkROI ypix xpix lam dx dy rs)
  = Ok (mean_distance_from (ROI_median_pix (mkROI ypix xpix lam dx dy rs))
                           (zip ypix xpix)).
Proof.
  intros H. unfold ROI_mean_r_squared, mean_distance_from, ROI_median_pix. simpl.
  rewrite mean_r_squared_same_length by (rewrite !length_map; congruence).
  rewrite !map_map. rewrite zip_with_map_map. reflexivity.
Qed.

Lemma Sorted_Fle_split (n : nat) (rs : list float64) :
  Sorted Fle rs ->
  forall a b, In a (firstn n rs) -> In b (skipn n rs) -> Fle a b.
Proof.
  intros Hs. apply Sorted_StronglySorted in Hs; [| exact Fle_trans].
  revert n. induction Hs as [|v rs Hs IH Hall]; intros n a b Ha Hb.
  - destruct n; destruct Ha.
  - destruct n as [|n]; [destruct Ha |]. simpl in Ha, Hb.
    destruct Ha as [<- | Ha].
    + rewrite Forall_forall in Hall. apply Hall. apply list_elem_of_In.
      rewrite <- (firstn_skipn n rs). apply in_or_app. right. exact Hb.
    + apply (IH n); assumption.
Qed.

Lemma Sorted_Fle_reals (sl : list R) (k : nat) (x : R) :
  Sorted Fle (map Fin sl) -> sl !! k = Some x ->
  Forall (fun v => v <= x) (firstn k sl).
Proof.
  intros Hs Hx. apply Forall_forall. intros v Hv.
  pose proof (Sorted_Fle_split k (map Fin sl) Hs (Fin v) (Fin x)) as H.
  simpl in H. apply H.
  - rewrite firstn_map. apply in_map, list_elem_of_In, Hv.
  - rewrite skipn_map. apply in_map.
    apply list_elem_of_In, list_elem_of_lookup. exists 0%nat.
    rewrite lookup_drop, Nat.add_0_r. exact Hx.
Qed.

(** C10: from [3721] pixels on, the length of the default table, the
    baseline [mean_r_squared0] is the mean of the whole table, whatever the
    number of pixels; the property is a plain value, it raises nothing. *)
Theorem mean_r_squared0_saturates (ypix xpix : list Z) (lam : list float64)
    (dx dy : option Z) (roi : ROI) :
  ROI_init ypix xpix lam dx dy default_rsort = Ok roi ->
  (3721 <= ROI_n_pixels roi)%nat ->
  length default_rsort = 3721%nat /\
  ROI_mean_r_squared0 roi = np_mean default_rsort.
Proof.
  intros Hinit Hn. apply ROI_init_inv in Hinit as (-> & Hyx & Hl).
  assert (Hlen : length default_rsort = 3721%nat).
  { unfold default_rsort. rewrite radial_reference_length by lia. reflexivity. }
  split; [exact Hlen |].
  unfold ROI_mean_r_squared0, ROI_n_pixels in *. simpl in Hn. simpl.
  rewrite firstn_all2 by lia. reflexivity.
Qed.

Lemma mean_r_squared0_saturates_witness :
  length default_rsort = 3721%nat /\
  ROI_mean_r_squared0 (mkROI (repeat 0%Z 4000) (repeat 0%Z 4000) (repeat (Fin 1) 4000)
                             None None default_rsort)
  = np_mean default_rsort.
Proof.
  apply (mean_r_squared0_saturates (repeat 0%Z 4000) (repeat 0%Z 4000)
                                   (repeat (Fin 1) 4000) None None).
  - apply ROI_init_ok; rewrite !repeat_length; reflexivity.
  - unfold ROI_n_pixels. cbn [xpix]. rewrite repeat_length. lia.
Defined.

Section Scale.

Variable eig_finite : (R * R) * (R * R) -> (R * R) * ((R * R) * (R * R)).

(** C3: on an ROI without [dx] or without [dy], reading [radii] raises, and
    so do [radius] and [aspect_ratio], which read it; the ROI is left as it
    was, and its other properties still have their values. *)
Theorem radii_requires_scale (ypix xpix : list Z) (lam : list float64)
    (dx dy : option Z) (rs : list float64) (roi : ROI) :
  ROI_init ypix xpix lam dx dy rs = Ok roi ->
  dx = None \/ dy = None ->
  ROI_radii eig_finite roi
  = (roi, Raise (TypeError "dx and dy are required for calculating radii.")) /\
  ROI_radius eig_finite roi
  = (roi, Raise (TypeError "dx and dy are required for calculating radii.")) /\
  ROI_aspect_ratio eig_finite roi
  = (roi, Raise (TypeError "dx and dy are required for calculating radii.")) /\
  returns (ROI_mean_r_squared roi) /\
  returns (ROI_mean_r_squared_compact roi) /\
  ROI_mean_r_squared0 roi = np_mean (firstn (length ypix) rs) /\
  ROI_median_pix roi = (np_median (map of_int ypix), np_median (map of_int xpix)) /\
  ROI_n_pixels roi = length xpix.
Proof.
  intros Hinit Hnone. apply ROI_init_inv in Hinit as (-> & Hyx & Hl).
  assert (Hradii : ROI_radii eig_finite (mkROI ypix xpix lam dx dy rs)
                   = (mkROI ypix xpix lam dx dy rs,
                      Raise (TypeError "dx and dy are required for calculating radii."))).
  { unfold ROI_radii. simpl. destruct Hnone as [-> | ->]; [reflexivity |].
    destruct dx; reflexivity. }
  split; [exact Hradii |].
  unfold ROI_radius, ROI_aspect_ratio. rewrite Hradii.
  split; [reflexivity |]. split; [reflexivity |].
  unfold ROI_mean_r_squared_compact.
  rewrite ROI_mean_r_squared_valid by exact Hyx.
  repeat split.
Qed.

End Scale.

Lemma radii_requires_scale_witness :
  ROI_radii eig_symmetric
    (mkROI [0; 0; 1; 1]%Z [0; 1; 0; 1]%Z [Fin 1; Fin 1; Fin 1; Fin 1]
           None (Some 1%Z) default_rsort)
  = (mkROI [0; 0; 1; 1]%Z [0; 1; 0; 1]%Z [Fin 1; Fin 1; Fin 1; Fin 1]
           None (Some 1%Z) default_rsort,
     Raise (TypeError "dx and dy are required for calculating radii.")).
Proof.
  apply (radii_requires_scale eig_symmetric
           [0; 0; 1; 1]%Z [0; 1; 0; 1]%Z [Fin 1; Fin 1; Fin 1; Fin 1]
           None (Some 1%Z) default_rsort _
           (ROI_init_ok [0; 0; 1; 1]%Z [0; 1; 0; 1]%Z [Fin 1; Fin 1; Fin 1; Fin 1]
                        None (Some 1%Z) default_rsort eq_refl eq_refl)
           (or_introl eq_refl)).
Defined.

(** ** The batch adapter *)

#[local] Arguments ROI_mean_r_squared : simpl never.
#[local] Arguments ROI_mean_r_squared0 : simpl never.
#[local] Arguments ROI_mean_r_squared_compact : simpl never.
#[local] Arguments ROI_median_pix : simpl never.
#[local] Arguments ROI_radius : simpl never.
#[local] Arguments ROI_aspect_ratio : simpl never.
#[local] Arguments roi_of_record : simpl never.
#[local] Arguments norm_by_average : simpl never.

Ltac lookup_inserted :=
  repeat (rewrite lookup_insert_ne by discriminate);
  rewrite ?lookup_insert_eq; try reflexivity.

Lemma for_each_Forall2 {A B} (f : A -> result B) (l : list A) (l' : list B) :
  for_each f l = Ok l' -> Forall2 (fun a b => f a = Ok b) l l'.
Proof.
  revert l'. induction l as [|a l IH]; simpl; intros l' H.
  - injection H as <-. constructor.
  - destruct (f a) as [b|] eqn:Ea; [| discriminate]. simpl in H.
    destruct (for_each f l) as [bs|]; [| discriminate]. simpl in H.
    injection H as <-. constructor; [exact Ea | apply IH; reflexivity].
Qed.

Lemma lookup_map {A B} (f : A -> B) (l : list A) (i : nat) :
  map f l !! i = f <$> l !! i.
Proof.
  revert i. induction l as [|a l IH]; intros [|i]; simpl; try reflexivity. apply IH.
Qed.

Lemma norm_by_average_lookup values estimator offset first_n (i : nat) :
  norm_by_average values estimator offset first_n !! i
  = (fun v => Fdiv v (Fadd (estimator
                              (match first_n with
                               | Some n => firstn n values
                               | None => values
                               end)) offset)) <$> values !! i.
Proof. unfold norm_by_average. apply lookup_map. Qed.

Lemma norm_by_average_length values estimator offset first_n :
  length (norm_by_average values estimator offset first_n) = length values.
Proof. unfold norm_by_average. apply length_map. Qed.

Lemma roi_stats_normed_fields (s : gmap string value) (m n : float64) :
  roi_stats_normed s m n !! "mrs" = Some (VFloat m) /\
  roi_stats_normed s m n !! "npix_norm" = Some (VFloat n) /\
  roi_stats_normed s m n !! "npix" = s !! "npix" /\
  roi_stats_normed s m n !! "footprint" = Some (default (VInt 0) (s !! "footprint")).
Proof.
  unfold roi_stats_normed. lookup_inserted.
  destruct (s !! "footprint") as [v|] eqn:E; simpl;
    repeat split; lookup_inserted.
Qed.

Section BatchFacts.

Variable eig_finite : (R * R) * (R * R) -> (R * R) * ((R * R) * (R * R)).

Lemma roi_stats_record_fields (ky kx : Z) (s s1 : gmap string value) :
  roi_stats_record eig_finite ky kx s = Ok s1 ->
  exists r m,
    roi_of_record ky kx s = Ok r /\
    ROI_mean_r_squared r = Ok m /\
    s1 !! "mrs" = Some (VFloat m) /\
    s1 !! "npix" = Some (VInt (Z.of_nat (ROI_n_pixels r))) /\
    s1 !! "footprint" = s !! "footprint".
Proof.
  unfold roi_stats_record. intros H.
  destruct (roi_of_record ky kx s) as [r|] eqn:Er; [| discriminate]. simpl in H.
  destruct (ROI_mean_r_squared r) as [m|] eqn:Em; [| discriminate]. simpl in H.
  destruct (ROI_mean_r_squared_compact r) as [c|] eqn:Ec; [| discriminate]. simpl in H.
  exists r, m. split; [reflexivity |]. split; [exact Em |].
  match type of H with
  | match ?l with _ => _ end = _ => destruct l as [rad|] eqn:Erad
  end.
  - injection H as <-. repeat split; lookup_inserted.
  - destruct (ROI_radii eig_finite r) as [r1 [rd|]]; [| discriminate]. simpl in H.
    destruct (mean_scale (dx r) (dy r)) as [sc|]; [| discriminate]. simpl in H.
    destruct (ROI_radii eig_finite r1) as [r2 [rd2|]]; [| discriminate]. simpl in H.
    injection H as <-. repeat split; lookup_inserted.
Qed.

End BatchFacts.

Section BatchTheorem.

Variable eig_finite : (R * R) * (R * R) -> (R * R) * ((R * R) * (R * R)).

Lemma roi_stats_pointwise (ky kx : Z) (stats stats1 : list (gmap string value))
    (mrs npix : list float64) (i : nat) (s : gmap string value) :
  for_each (roi_stats_record eig_finite ky kx) stats = Ok stats1 ->
  for_each (fun stat => get stat "mrs" ≫= as_float) stats1 = Ok mrs ->
  for_each (fun stat => get stat "npix" ≫= as_float) stats1 = Ok npix ->
  stats !! i = Some s ->
  exists s1 r m,
    stats1 !! i = Some s1 /\
    roi_of_record ky kx s = Ok r /\
    ROI_mean_r_squared r = Ok m /\
    mrs !! i = Some m /\
    npix !! i = Some (of_int (Z.of_nat (ROI_n_pixels r))) /\
    s1 !! "npix" = Some (VInt (Z.of_nat (ROI_n_pixels r))) /\
    s1 !! "footprint" = s !! "footprint".
Proof.
  intros E1 E2 E3 Hs.
  apply for_each_Forall2 in E1, E2, E3.
  destruct (Forall2_lookup_l _ _ _ _ _ E1 Hs) as (s1 & Hs1 & Hrec).
  destruct (roi_stats_record_fields _ _ _ _ _ Hrec) as (r & m & Hr & Hm & Hmrs & Hnpix & Hfoot).
  destruct (Forall2_lookup_l _ _ _ _ _ E2 Hs1) as (m' & Hm' & Hget).
  destruct (Forall2_lookup_l _ _ _ _ _ E3 Hs1) as (n' & Hn' & Hgetn).
  unfold get in Hget, Hgetn. rewrite Hmrs in Hget. rewrite Hnpix in Hgetn.
  simpl in Hget, Hgetn. injection Hget as <-. injection Hgetn as <-.
  exists s1, r, m. repeat split; assumption.
Qed.

(** C8, amended: when [roi_stats] returns, every record holds under
    ['mrs'] its mean-r-squared divided by the population estimate (the
    normalizer run on the ['mrs'] values with [np.nanmedian], offset
    [1e-10] and the first 100 values), and under the new key ['npix_norm']
    its pixel count divided likewise (the normalizer run on the ['npix']
    values with its defaults and the first 100 values); ['npix'] itself
    keeps the raw pixel count.  ['footprint'] is [0] where the record had
    none and is left as it was otherwise. *)
Theorem roi_stats_normalizes (ky kx : Z) (stats out : list (gmap string value)) :
  roi_stats eig_finite ky kx stats = Ok out ->
  exists mrs npix : list float64,
    Forall2 (fun s m => exists r, roi_of_record ky kx s = Ok r /\
                                  ROI_mean_r_squared r = Ok m) stats mrs /\
    Forall2 (fun s n => exists r, roi_of_record ky kx s = Ok r /\
                                  n = of_int (Z.of_nat (ROI_n_pixels r))) stats npix /\
    length out = length stats /\
    forall i s o, stats !! i = Some s -> out !! i = Some o ->
      o !! "mrs"
      = VFloat <$> norm_by_average mrs np_nanmedian (Fin 1e-10) (Some 100%nat) !! i /\
      o !! "npix_norm"
      = VFloat <$> norm_by_average npix default_estimator (Fin 0) (Some 100%nat) !! i /\
      is_Some (o !! "npix_norm") /\
      (exists r, roi_of_record ky kx s = Ok r /\
                 o !! "npix" = Some (VInt (Z.of_nat (ROI_n_pixels r)))) /\
      o !! "footprint" = Some (default (VInt 0) (s !! "footprint")).
Proof.
  unfold roi_stats. intros H.
  destruct (for_each (roi_stats_record eig_finite ky kx) stats) as [stats1|] eqn:E1;
    [| discriminate]. simpl in H.
  destruct (for_each (fun stat => get stat "mrs" ≫= as_float) stats1) as [mrs|] eqn:E2;
    [| discriminate]. simpl in H.
  destruct (for_each (fun stat => get stat "npix" ≫= as_float) stats1) as [npix|] eqn:E3;
    [| discriminate]. simpl in H.
  injection H as <-.
  pose proof (roi_stats_pointwise ky kx stats stats1 mrs npix) as Hpt.
  assert (L1 : length stats1 = length stats).
  { symmetry. eapply Forall2_length, for_each_Forall2, E1. }
  assert (L2 : length mrs = length stats).
  { rewrite <- L1. symmetry. eapply Forall2_length, for_each_Forall2, E2. }
  assert (L3 : length npix = length stats).
  { rewrite <- L1. symmetry. eapply Forall2_length, for_each_Forall2, E3. }
  exists mrs, npix. split; [| split; [| split]].
  - apply Forall2_same_length_lookup. split; [congruence |].
    intros i s m Hs Hm.
    destruct (Hpt i s E1 E2 E3 Hs) as (s1 & r & m' & _ & Hr & Hm' & Hl & _).
    exists r. split; [exact Hr |]. congruence.
  - apply Forall2_same_length_lookup. split; [congruence |].
    intros i s n Hs Hn.
    destruct (Hpt i s E1 E2 E3 Hs) as (s1 & r & m' & _ & Hr & _ & _ & Hl & _).
    exists r. split; [exact Hr |]. congruence.
  - rewrite length_zip_with, length_zip, !norm_by_average_length. lia.
  - intros i s o Hs Ho.
    destruct (Hpt i s E1 E2 E3 Hs) as (s1 & r & m & Hs1 & Hr & Hm & Hlm & Hln & Hnp & Hfp).
    apply lookup_zip_with_Some in Ho as (s1' & n & -> & Hs1' & Hn).
    rewrite Hs1 in Hs1'. injection Hs1' as <-.
    unfold zip in Hn. apply lookup_zip_with_Some in Hn as (a & b & -> & Ha & Hb).
    destruct (roi_stats_normed_fields s1 a b) as (F1 & F2 & F3 & F4).
    simpl. rewrite F1, F2, F3, F4, Ha, Hb, Hfp. simpl.
    repeat split; try reflexivity.
    + eexists. reflexivity.
    + exists r. split; assumption.
Qed.

End BatchTheorem.

(** ** The adapter on the sample batch *)

Lemma two_pixel_roi_of_record : roi_of_record 1 1 two_pixel_record = Ok two_pixel_roi.
Proof.
  unfold roi_of_record, get, two_pixel_record. lookup_inserted.
Qed.

Lemma two_pixel_npix_norm :
  norm_by_average [of_int 2] default_estimator (Fin 0) (Some 100%nat) = [Fin 1].
Proof.
  unfold norm_by_average, default_estimator, np_median, of_int. simpl.
  unfold np_mean, Fdiv, Fadd. rdec. f_equal. f_equal. field.
Qed.

Lemma two_pixel_run :
  exists out,
    roi_stats eig_symmetric 1 1 [two_pixel_record] = Ok [out] /\
    out !! "npix" = Some (VInt 2) /\
    out !! "npix_norm" = Some (VFloat (Fin 1)).
Proof.
  pose proof (ROI_mean_r_squared_valid [0; 1]%Z [0; 0]%Z [Fin 1; Fin 1]
                (Some 1%Z) (Some 1%Z) default_rsort eq_refl) as Hm.
  fold two_pixel_roi in Hm.
  unfold roi_stats, for_each, roi_stats_record.
  rewrite two_pixel_roi_of_record. cbn [mbind result_bind].
  unfold ROI_mean_r_squared_compact. rewrite Hm. cbn [mbind result_bind].
  unfold two_pixel_record at 1. lookup_inserted. cbn [mbind result_bind].
  unfold get. lookup_inserted. cbn [mbind result_bind as_float].
  change (of_int (Z.of_nat (ROI_n_pixels two_pixel_roi))) with (of_int 2).
  rewrite two_pixel_npix_norm. cbn [zip_with zip fst snd].
  eexists. split; [reflexivity |].
  match goal with
  | |- roi_stats_normed ?s ?m ?n !! _ = _ /\ _ =>
      destruct (roi_stats_normed_fields s m n) as (_ & F2 & F3 & _)
  end.
  rewrite F2, F3. split; [| reflexivity]. lookup_inserted.
Qed.

(** C8, as stated, fails for the pixel count: the adapter does not overwrite
    ['npix'].  On the sample batch the record ends with the raw count [2]
    under ['npix'] and the normalized count [1] under ['npix_norm']. *)
Lemma roi_stats_keeps_npix :
  exists out,
    roi_stats eig_symmetric 1 1 [two_pixel_record] = Ok [out] /\
    out !! "npix" = Some (VInt 2) /\
    out !! "npix_norm" = Some (VFloat (Fin 1)) /\
    VInt 2 <> VFloat (Fin 1).
Proof.
  destruct two_pixel_run as (out & Hrun & Hn & Hnn).
  exists out. repeat split; try assumption. discriminate.
Qed.

Lemma roi_stats_normalizes_witness :
  exists out,
    roi_stats eig_symmetric 1 1 [two_pixel_record] = Ok out /\
    length out = 1%nat.
Proof.
  destruct two_pixel_run as (o & Hrun & _).
  exists [o]. split; [exact Hrun |].
  destruct (roi_stats_normalizes eig_symmetric 1 1 [two_pixel_record] [o] Hrun)
    as (mrs & npix & _ & _ & Hlen & _).
  exact Hlen.
Defined.

(** * Further properties of the ellipse fit *)

Lemma Fmul_comm (a b : float64) : Fmul a b = Fmul b a.
Proof.
  unfold Fmul. destruct a as [x|[]|], b as [y|[]|]; try reflexivity.
  f_equal. lra.
Qed.

Lemma dot_comm (a b : list float64) : dot a b = dot b a.
Proof.
  unfold dot. f_equal. revert b.
  induction a as [|u a IH]; intros [|v b]; simpl; try reflexivity.
  rewrite Fmul_comm, IH. reflexivity.
Qed.

Lemma Fadd_fin_inv (a b : float64) (s : R) :
  Fadd a b = Fin s -> exists x y, a = Fin x /\ b = Fin y /\ s = x + y.
Proof.
  destruct a as [x|[]|], b as [y|[]|]; simpl; intros H; try discriminate.
  injection H as <-. exists x, y. repeat split.
Qed.

Lemma Fmul_self_fin_inv (v : float64) (p : R) : Fmul v v = Fin p -> 0 <= p.
Proof.
  unfold Fmul. destruct v as [x|[]|]; intros H; try discriminate.
  injection H as <-. nra.
Qed.

Lemma dot_self_nonneg (c : list float64) (a : R) : dot c c = Fin a -> 0 <= a.
Proof.
  unfold dot, np_sum. revert a. induction c as [|v c IH]; simpl; intros a H.
  - injection H as <-. lra.
  - apply Fadd_fin_inv in H as (p & q & Hp & Hq & ->).
    apply Fmul_self_fin_inv in Hp. apply IH in Hq. lra.
Qed.

Lemma radius_fin (t w : R) :
  exists r, Fmul (Fin t) (Fsqrt (Fmaximum (Fin 0) (Fin w))) = Fin r /\
            (0 <= t -> 0 <= r).
Proof.
  unfold Fmaximum, Fleb, Rleb.
  destruct (Rle_dec 0 w); unfold Fsqrt, Rneg;
    match goal with |- context [Rlt_dec ?a 0] => destruct (Rlt_dec a 0); try lra end;
    unfold Fmul; eexists; (split; [reflexivity |]); intros Ht;
    apply Rmult_le_pos; try exact Ht; apply sqrt_pos.
Qed.

Lemma sort_descending_fin (a b : R) :
  sort_descending (Fin a, Fin b) = (Fin (Rmax a b), Fin (Rmin a b)).
Proof.
  unfold sort_descending. cbn [fst snd np_sort sort_insert Fleb].
  unfold Rleb. destruct (Rle_dec a b) as [H | H]; cbn [rev app].
  - rewrite Rmax_right, Rmin_left by lra. reflexivity.
  - rewrite Rmax_left, Rmin_right by lra. reflexivity.
Qed.

Lemma np_linspace_inv (start stop : R) (num : Z) (theta : list float64) :
  np_linspace start stop num = Ok theta ->
  (0 <= num)%Z /\
  theta = map (fun i =>
                 Fin (if (num =? 1)%Z then INR i * (stop - start) + start
                      else INR i * ((stop - start) / (IZR num - 1)) + start))
              (seq 0 (Z.to_nat num)).
Proof.
  unfold np_linspace. destruct (Z.ltb_spec num 0) as [Hneg | Hpos];
    intros Heq; [discriminate |].
  injection Heq as <-. split; [lia | reflexivity].
Qed.

Section FitShape.

Variable eig_finite : (R * R) * (R * R) -> (R * R) * ((R * R) * (R * R)).

Lemma np_linalg_eig_inv (a : mat2) (ev : vec2) (evec : mat2) :
  np_linalg_eig eig_finite a = Ok (ev, evec) ->
  exists a00 a01 a10 a11 w0 w1 v00 v01 v10 v11,
    a = ((Fin a00, Fin a01), (Fin a10, Fin a11)) /\
    ev = (Fin w0, Fin w1) /\
    evec = ((Fin v00, Fin v01), (Fin v10, Fin v11)).
Proof.
  unfold np_linalg_eig.
  destruct a as [[[a00| |] [a01| |]] [[a10| |] [a11| |]]]; intros H; try discriminate.
  destruct (eig_finite _) as [[w0 w1] [[v00 v01] [v10 v11]]].
  injection H as <- <-. exists a00, a01, a10, a11, w0, w1, v00, v01, v10, v11.
  repeat split.
Qed.

(** What a returned ellipse is made of, step by step. *)
Lemma fit_normalized_inv (y x w : list float64) (thres : float64) (npts : Z)
    (e : EllipseData) :
  fit_normalized eig_finite y x w thres npts = Ok e ->
  exists ly lx cy cx ev evec theta,
    length y = length x /\
    broadcast Fmul w y = Ok ly /\
    broadcast Fmul w x = Ok lx /\
    broadcast Fmul (map (fun v => Fsub v (np_sum ly)) y) (map Fsqrt w) = Ok cy /\
    broadcast Fmul (map (fun v => Fsub v (np_sum lx)) x) (map Fsqrt w) = Ok cx /\
    np_linalg_eig eig_finite ((dot cy cy, dot cy cx), (dot cx cy, dot cx cx))
    = Ok (ev, evec) /\
    np_linspace 0 (2 * PI) npts = Ok theta /\
    mu e = (np_sum ly, np_sum lx) /\
    cov e = ((dot cy cy, dot cy cx), (dot cx cy, dot cx cx)) /\
    radii e = sort_descending (Fmul thres (Fsqrt (Fmaximum (Fin 0) ev.1)),
                               Fmul thres (Fsqrt (Fmaximum (Fin 0) ev.2))) /\
    ellipse e
    = map (fun t =>
             (Fadd (Fadd (Fmul (Fmul (Fcos t)
                                     (Fmul thres (Fsqrt (Fmaximum (Fin 0) ev.1))))
                               evec.1.1)
                         (Fmul (Fmul (Fsin t)
                                     (Fmul thres (Fsqrt (Fmaximum (Fin 0) ev.2))))
                               evec.1.2))
                   (np_sum ly),
              Fadd (Fadd (Fmul (Fmul (Fcos t)
                                     (Fmul thres (Fsqrt (Fmaximum (Fin 0) ev.1))))
                               evec.2.1)
                         (Fmul (Fmul (Fsin t)
                                     (Fmul thres (Fsqrt (Fmaximum (Fin 0) ev.2))))
                               evec.2.2))
                   (np_sum lx)))
          theta.
Proof.
  unfold fit_normalized, stack2. intros H.
  destruct (decide (length y = length x)) as [Hyx|]; [| discriminate].
  cbn [mbind result_bind fst snd] in H.
  destruct (broadcast Fmul w y) as [ly|] eqn:E1; [| discriminate].
  cbn [mbind result_bind fst snd] in H.
  destruct (broadcast Fmul w x) as [lx|] eqn:E2; [| discriminate].
  cbn [mbind result_bind fst snd] in H.
  destruct (broadcast Fmul (map (fun v => Fsub v (np_sum ly)) y) (map Fsqrt w))
    as [cy|] eqn:E3; [| discriminate].
  cbn [mbind result_bind fst snd] in H.
  destruct (broadcast Fmul (map (fun v => Fsub v (np_sum lx)) x) (map Fsqrt w))
    as [cx|] eqn:E4; [| discriminate].
  cbn [mbind result_bind fst snd] in H.
  destruct (np_linalg_eig eig_finite _) as [[ev evec]|] eqn:E5; [| discriminate].
  cbn [mbind result_bind fst snd] in H.
  destruct (np_linspace 0 (2 * PI) npts) as [theta|] eqn:E6; [| discriminate].
  cbn [mbind result_bind fst snd] in H.
  injection H as <-.
  exists ly, lx, cy, cx, ev, evec, theta. cbn [mu cov radii ellipse].
  repeat split; reflexivity || assumption.
Qed.

End FitShape.

Lemma Rsum_scale (c : R) (a : list R) : Rsum (map (fun v => v / c) a) = Rsum a / c.
Proof.
  unfold Rsum. induction a as [|v a IH]; simpl; [lra |].
  rewrite IH. lra.
Qed.

Lemma normalize_inplace_twice (rl : list R) :
  Rsum rl <> 0 ->
  normalize_inplace (normalize_inplace (map Fin rl)) = normalize_inplace (map Fin rl).
Proof.
  intros Hs. rewrite (normalize_inplace_fin rl Hs).
  assert (H1 : Rsum (map (fun l => l / Rsum rl) rl) = 1).
  { rewrite Rsum_scale. field. exact Hs. }
  rewrite normalize_inplace_fin by lra. rewrite H1.
  f_equal. rewrite map_map. apply map_ext. intros l. field. exact Hs.
Qed.

Section FitTheorems.

Variable eig_finite : (R * R) * (R * R) -> (R * R) * ((R * R) * (R * R)).

(** X1: the radii of a returned ellipse come in the descending order of
    [np.sort], major axis first: unless the first is not-a-number, neither
    is, and the second does not exceed the first. *)
Theorem fitMVGaus_radii_descending (y x lam : list float64) (thres : float64)
    (npts : Z) (e : EllipseData) :
  (fitMVGaus eig_finite y x lam thres npts).2 = Ok e ->
  Fleb_rel (radii e).2 (radii e).1 /\
  (isnan (radii e).1 = false -> Fle (radii e).2 (radii e).1).
Proof.
  unfold fitMVGaus. cbn [snd]. intros H.
  apply fit_normalized_inv in H
    as (ly & lx & cy & cx & ev & evec & theta & _ & _ & _ & _ & _ & _ & _ & _ & _ & Hr & _).
  rewrite Hr.
  assert (Hord : forall r : vec2, Fleb_rel (sort_descending r).2 (sort_descending r).1).
  { intros [r0 r1]. unfold sort_descending, Fleb_rel. cbn [fst snd np_sort sort_insert].
    destruct (Fleb r0 r1) eqn:E; cbn [rev app fst snd]; [exact E |].
    apply Fleb_total, E. }
  split; [apply Hord |].
  intros Hnan. specialize (Hord (Fmul thres (Fsqrt (Fmaximum (Fin 0) ev.1)),
                                 Fmul thres (Fsqrt (Fmaximum (Fin 0) ev.2)))).
  unfold Fleb_rel in Hord.
  destruct (sort_descending _) as [[a|[]|] [b|[]|]]; cbn [fst snd] in *;
    cbn [Fleb Fle isnan] in *; try discriminate; try reflexivity; auto.
  unfold Rleb in Hord. destruct (Rle_dec b a); [assumption | discriminate].
Qed.

(** X2: the covariance of a returned ellipse is a finite symmetric matrix
    with a non-negative diagonal. *)
Theorem fitMVGaus_cov_symmetric (y x lam : list float64) (thres : float64)
    (npts : Z) (e : EllipseData) :
  (fitMVGaus eig_finite y x lam thres npts).2 = Ok e ->
  exists a b d, cov e = ((Fin a, Fin b), (Fin b, Fin d)) /\ 0 <= a /\ 0 <= d.
Proof.
  unfold fitMVGaus. cbn [snd]. intros H.
  apply fit_normalized_inv in H
    as (ly & lx & cy & cx & ev & evec & theta & _ & _ & _ & _ & _ & Heig & _ & _ & Hc & _).
  apply np_linalg_eig_inv in Heig
    as (a00 & a01 & a10 & a11 & w0 & w1 & v00 & v01 & v10 & v11 & Ha & _ & _).
  injection Ha as H00 H01 H10 H11.
  rewrite (dot_comm cx cy), H01 in H10. injection H10 as <-.
  exists a00, a01, a11. rewrite Hc, H00, H01, (dot_comm cx cy), H01, H11.
  split; [reflexivity |].
  split; eapply dot_self_nonneg; eassumption.
Qed.

(** X3: a returned ellipse has exactly [npts] boundary points, and [npts]
    was not negative. *)
Theorem fitMVGaus_ellipse_length (y x lam : list float64) (thres : float64)
    (npts : Z) (e : EllipseData) :
  (fitMVGaus eig_finite y x lam thres npts).2 = Ok e ->
  (0 <= npts)%Z /\ length (ellipse e) = Z.to_nat npts.
Proof.
  unfold fitMVGaus. cbn [snd]. intros H.
  apply fit_normalized_inv in H
    as (ly & lx & cy & cx & ev & evec & theta & _ & _ & _ & _ & _ & _ & Ht & _ & _ & _ & He).
  apply np_linspace_inv in Ht as (Hn & ->).
  split; [exact Hn |]. rewrite He, !length_map, length_seq. reflexivity.
Qed.

End FitTheorems.

Lemma returns_Ok {A} (m : result A) : returns m -> exists a, m = Ok a.
Proof. destruct m as [a|]; [intros _; exists a; reflexivity | intros []]. Qed.

(** The fit on the unit square with unit weights returns. *)
Lemma unit_square_fit :
  exists e,
    (fitMVGaus eig_symmetric (map Fin [0; 0; 1; 1]) (map Fin [0; 1; 0; 1])
               (map Fin [1; 1; 1; 1]) (Fin 2.5) 100).2 = Ok e.
Proof.
  apply returns_Ok. apply fitMVGaus_returns.
  - reflexivity.
  - reflexivity.
  - repeat constructor; lra.
  - unfold Rsum. simpl. lra.
  - lia.
Qed.

Lemma fitMVGaus_radii_descending_witness :
  exists e,
    (fitMVGaus eig_symmetric (map Fin [0; 0; 1; 1]) (map Fin [0; 1; 0; 1])
               (map Fin [1; 1; 1; 1]) (Fin 2.5) 100).2 = Ok e /\
    Fleb_rel (radii e).2 (radii e).1.
Proof.
  destruct unit_square_fit as (e & He).
  destruct (fitMVGaus_radii_descending eig_symmetric _ _ _ _ _ e He) as (Hr & _).
  exists e. split; assumption.
Defined.

Lemma fitMVGaus_cov_symmetric_witness :
  exists e a b d,
    (fitMVGaus eig_symmetric (map Fin [0; 0; 1; 1]) (map Fin [0; 1; 0; 1])
               (map Fin [1; 1; 1; 1]) (Fin 2.5) 100).2 = Ok e /\
    cov e = ((Fin a, Fin b), (Fin b, Fin d)).
Proof.
  destruct unit_square_fit as (e & He).
  destruct (fitMVGaus_cov_symmetric eig_symmetric _ _ _ _ _ e He)
    as (a & b & d & Hc & _).
  exists e, a, b, d. split; assumption.
Defined.

Lemma fitMVGaus_ellipse_length_witness :
  exists e,
    (fitMVGaus eig_symmetric (map Fin [0; 0; 1; 1]) (map Fin [0; 1; 0; 1])
               (map Fin [1; 1; 1; 1]) (Fin 2.5) 100).2 = Ok e /\
    length (ellipse e) = Z.to_nat 100.
Proof.
  destruct unit_square_fit as (e & He).
  destruct (fitMVGaus_ellipse_length eig_symmetric _ _ _ _ _ e He) as (_ & Hl).
  exists e. split; assumption.
Defined.

(** ** Arrays that do not fit *)

Lemma broadcast_error f (a b : list float64) :
  length a <> length b -> length a <> 1%nat -> length b <> 1%nat ->
  broadcast f a b = Raise (ValueError "operands could not be broadcast together").
Proof.
  intros H H1 H2. unfold broadcast. rewrite decide_False by exact H.
  destruct a as [|a0 [|a1 a]]; destruct b as [|b0 [|b1 b]]; simpl in *;
    try reflexivity; lia.
Qed.

Section FitEdges.

Variable eig_finite : (R * R) * (R * R) -> (R * R) * ((R * R) * (R * R)).

(** X10: arrays whose shapes do not fit end the fit in a [ValueError]: [y]
    and [x] of different lengths, or [lam] of a length that is neither
    theirs nor one while theirs is not one.  The exception leaves the
    caller's [lam] normalized all the same. *)
Theorem fitMVGaus_shape_error (y x lam : list float64) (thres : float64) (npts : Z) :
  length y <> length x \/
  (length lam <> length y /\ length lam <> 1%nat /\ length y <> 1%nat) ->
  exists msg,
    fitMVGaus eig_finite y x lam thres npts
    = (normalize_inplace lam, Raise (ValueError msg)).
Proof.
  intros H. unfold fitMVGaus, fit_normalized, stack2.
  destruct (decide (length y = length x)) as [Hyx | Hyx];
    [| eexists; reflexivity].
  destruct H as [H | (H1 & H2 & H3)]; [contradiction |].
  cbn [mbind result_bind fst snd].
  pose proof (normalize_inplace_length lam) as Hlen.
  rewrite (broadcast_error Fmul (normalize_inplace lam) y) by congruence.
  eexists. reflexivity.
Qed.

End FitEdges.

Lemma fitMVGaus_shape_error_witness :
  exists msg,
    fitMVGaus eig_symmetric [Fin 0; Fin 1] [Fin 0] [Fin 1; Fin 1] (Fin 2.5) 100
    = (normalize_inplace [Fin 1; Fin 1], Raise (ValueError msg)).
Proof.
  apply fitMVGaus_shape_error. left. simpl. lia.
Defined.

(** ** A negative number of boundary points *)

Section FitPoints.

Variable eig_finite : (R * R) * (R * R) -> (R * R) * ((R * R) * (R * R)).

(** On well-formed input the fit goes as far as [np.linspace]. *)
Lemma fit_reaches_linspace (ry rx rl : list R) (thres : float64) (npts : Z) :
  length ry = length rl ->
  length rx = length rl ->
  Forall (fun l => 0 <= l) rl ->
  0 < Rsum rl ->
  exists k : list float64 -> EllipseData,
    (fitMVGaus eig_finite (map Fin ry) (map Fin rx) (map Fin rl) thres npts).2
    = (theta ← np_linspace 0 (2 * PI) npts; Ok (k theta)).
Proof.
  intros Hy Hx Hl Hs. unfold fitMVGaus. cbn [snd].
  rewrite normalize_inplace_fin by lra.
  assert (Hw : Forall (fun l => 0 <= l) (map (fun l => l / Rsum rl) rl)).
  { apply Forall_map. eapply Forall_impl; [exact Hl |].
    intros l Hl0. simpl. apply Rmult_le_pos; [exact Hl0 |].
    apply Rlt_le, Rinv_0_lt_compat, Hs. }
  unfold fit_normalized, stack2.
  rewrite decide_True by (rewrite !length_map; congruence).
  cbn [mbind result_bind fst snd].
  rewrite !broadcast_same_length by (rewrite !length_map; congruence).
  cbn [mbind result_bind fst snd].
  rewrite !zip_with_Fmul_fin, !np_sum_fin, !map_Fsub_fin, (map_Fsqrt_fin _ Hw).
  rewrite !broadcast_same_length by (rewrite !length_map; congruence).
  cbn [mbind result_bind fst snd].
  rewrite !zip_with_Fmul_fin, !dot_fin.
  unfold np_linalg_eig.
  destruct (eig_finite _) as [[w0 w1] [[v00 v01] [v10 v11]]].
  cbn [mbind result_bind fst snd].
  eexists (fun theta => mkEllipseData _ _ _ _). reflexivity.
Qed.

(** X8: on coordinates up to [max_coordinate] in magnitude and non-negative
    weights up to [max_weight], of one common length and positive sum, a
    negative [npts] ends the fit in the [ValueError] of [np.linspace],
    whose message names [npts]. *)
Theorem fitMVGaus_negative_npts (ry rx rl : list R) (thres : float64) (npts : Z) :
  length ry = length rl ->
  length rx = length rl ->
  Forall (fun v => Rabs v <= max_coordinate) ry ->
  Forall (fun v => Rabs v <= max_coordinate) rx ->
  Forall (fun l => 0 <= l <= max_weight) rl ->
  0 < Rsum rl ->
  (npts < 0)%Z ->
  (fitMVGaus eig_finite (map Fin ry) (map Fin rx) (map Fin rl) thres npts).2
  = Raise (ValueError ("Number of samples, " +:+ pretty npts
                       +:+ ", must be non-negative.")).
Proof.
  intros Hy Hx _ _ Hl Hs Hn.
  assert (Hnn : Forall (fun l => 0 <= l) rl).
  { eapply Forall_impl; [exact Hl |]. intros l [H0 _]. exact H0. }
  destruct (fit_reaches_linspace ry rx rl thres npts Hy Hx Hnn Hs) as (k & ->).
  unfold np_linspace. destruct (Z.ltb_spec npts 0); [reflexivity | lia].
Qed.

End FitPoints.

Lemma fitMVGaus_negative_npts_witness :
  (fitMVGaus eig_symmetric (map Fin [0; 0; 1; 1]) (map Fin [0; 1; 0; 1])
             (map Fin [1; 1; 1; 1]) (Fin 2.5) (-1)).2
  = Raise (ValueError "Number of samples, -1, must be non-negative.").
Proof.
  apply (fitMVGaus_negative_npts eig_symmetric [0; 0; 1; 1] [0; 1; 0; 1] [1; 1; 1; 1]
           (Fin 2.5) (-1) eq_refl eq_refl).
  - unfold max_coordinate.
    repeat constructor; (rewrite Rabs_pos_eq by lra; lra).
  - unfold max_coordinate.
    repeat constructor; (rewrite Rabs_pos_eq by lra; lra).
  - unfold max_weight. repeat constructor; lra.
  - unfold Rsum. simpl. lra.
  - lia.
Defined.

(** * Further properties of the ROI *)

(** X12: on non-negative radii up to [max_radius] the aspect ratio is a
    finite number between [0] and [2]: the offset keeps the denominator
    away from zero. *)
Theorem aspect_ratio_range (ry rx : R) :
  0 <= ry <= max_radius -> 0 <= rx <= max_radius ->
  exists a, aspect_ratio (Fin ry) (Fin rx) default_offset = Fin a /\ 0 <= a <= 2.
Proof.
  intros [Hy _] [Hx _]. unfold default_offset. rewrite aspect_ratio_fin by lra.
  eexists. split; [reflexivity |].
  pose proof (aspect_ratio_bounds ry rx Hy Hx). lra.
Qed.

Lemma aspect_ratio_range_witness :
  exists a, aspect_ratio (Fin 3) (Fin 1) default_offset = Fin a /\ 0 <= a <= 2.
Proof. apply aspect_ratio_range; unfold max_radius; lra. Defined.

Section RoiFit.

Variable eig_finite : (R * R) * (R * R) -> (R * R) * ((R * R) * (R * R)).

Lemma fit_normalized_radii (y x w : list float64) (t : R) (npts : Z)
    (e : EllipseData) :
  fit_normalized eig_finite y x w (Fin t) npts = Ok e ->
  exists a b, radii e = (Fin a, Fin b) /\ b <= a /\ (0 <= t -> 0 <= b).
Proof.
  intros H.
  apply fit_normalized_inv in H
    as (ly & lx & cy & cx & ev & evec & theta & _ & _ & _ & _ & _ & Heig & _ & _ & _ & Hr & _).
  apply np_linalg_eig_inv in Heig
    as (a00 & a01 & a10 & a11 & w0 & w1 & v00 & v01 & v10 & v11 & _ & -> & _).
  cbn [fst snd] in Hr.
  destruct (radius_fin t w0) as (r0 & E0 & P0).
  destruct (radius_fin t w1) as (r1 & E1 & P1).
  rewrite E0, E1, sort_descending_fin in Hr.
  exists (Rmax r0 r1), (Rmin r0 r1). split; [exact Hr |]. split.
  - apply Rle_trans with r0; [apply Rmin_l | apply Rmax_l].
  - intros Ht. apply Rmin_glb; auto.
Qed.

Lemma ROI_radii_Ok (roi roi' : ROI) (r : vec2) :
  ROI_radii eig_finite roi = (roi', Ok r) ->
  exists a b, r = (Fin a, Fin b) /\ 0 <= b <= a.
Proof.
  unfold ROI_radii. destruct (dx roi) as [kx|]; [| intros H; discriminate].
  destruct (dy roi) as [ky|]; [| intros H; discriminate].
  unfold calc_radii, fitMVGaus. cbn [fst snd]. intros H.
  injection H as _ H.
  destruct (fit_normalized eig_finite _ _ _ _ _) as [e|] eqn:E; [| discriminate].
  cbn in H. injection H as <-.
  destruct (fit_normalized_radii _ _ _ _ _ _ E) as (a & b & Hr & Hab & Hb).
  exists a, b. split; [exact Hr |]. split; [apply Hb; lra | exact Hab].
Qed.

(** X13: whenever [aspect_ratio] of an ROI has a value, it is a finite
    number between [0] and [2], computed from radii that are finite,
    non-negative and in descending order. *)
Theorem ROI_aspect_ratio_range (roi roi' : ROI) (v : float64) :
  ROI_aspect_ratio eig_finite roi = (roi', Ok v) ->
  exists ry rx a,
    (ROI_radii eig_finite roi).2 = Ok (Fin ry, Fin rx) /\ 0 <= rx <= ry /\
    v = Fin a /\ 0 <= a <= 2.
Proof.
  unfold ROI_aspect_ratio.
  destruct (ROI_radii eig_finite roi) as [roi1 [r|]] eqn:E; cbn; intros H;
    [| discriminate].
  injection H as _ <-.
  destruct (ROI_radii_Ok _ _ _ E) as (a & b & -> & Hb & Hab).
  cbn [fst snd]. unfold default_offset. rewrite aspect_ratio_fin by lra.
  exists a, b. eexists. split; [reflexivity |]. split; [lra |].
  split; [reflexivity |].
  pose proof (aspect_ratio_bounds a b ltac:(lra) Hb). lra.
Qed.

Lemma scaled_coordinates (k : Z) (p : list Z) :
  k <> 0%Z ->
  map (fun v => Fdiv (of_int v) (of_int k)) p
  = map Fin (map (fun v => IZR v / IZR k) p).
Proof.
  intros Hk. rewrite map_map. apply map_ext. intros v.
  unfold Fdiv, of_int, Rzero.
  destruct (Req_dec_T (IZR k) 0) as [H0 | _]; [| reflexivity].
  apply eq_IZR_R0 in H0. contradiction.
Qed.

Lemma ROI_fit_returns (yp xp : list Z) (rl : list R) (kx ky : Z)
    (rs : list float64) (roi : ROI) :
  ROI_init yp xp (map Fin rl) (Some kx) (Some ky) rs = Ok roi ->
  kx <> 0%Z -> ky <> 0%Z ->
  Forall (fun l => 0 <= l) rl ->
  0 < Rsum rl ->
  returns (ROI_radii eig_finite roi).2 /\
  returns (ROI_radius eig_finite roi).2 /\
  returns (ROI_aspect_ratio eig_finite roi).2.
Proof.
  intros Hinit Hkx Hky Hl Hs.
  apply ROI_init_inv in Hinit as (-> & Hyx & Hlen). rewrite length_map in Hlen.
  assert (H : returns (ROI_radii eig_finite
                         (mkROI yp xp (map Fin rl) (Some kx) (Some ky) rs)).2).
  { unfold ROI_radii, calc_radii. cbn [dx dy ypix xpix lam fst snd].
    rewrite !scaled_coordinates by assumption.
    pose proof (fitMVGaus_returns eig_finite
                  (map (fun v => IZR v / IZR ky) yp)
                  (map (fun v => IZR v / IZR kx) xp) rl (Fin 2) default_npts) as Hr.
    destruct (fitMVGaus _ _ _ _ _ _).2 as [e|]; [exact I |].
    apply Hr; rewrite ?length_map; try congruence; try assumption.
    unfold default_npts. lia. }
  split; [exact H |].
  unfold ROI_radius, ROI_aspect_ratio. cbn [fst snd dx dy].
  destruct (ROI_radii eig_finite _).2 as [r|]; [| contradiction].
  split; exact I.
Qed.

(** X14: an ROI with non-zero scale factors and non-negative finite weights
    of positive sum has its [radii], its [radius] and its [aspect_ratio]:
    none of the three raises. *)
Theorem ROI_fit_properties_return (yp xp : list Z) (rl : list R) (kx ky : Z)
    (rs : list float64) (roi : ROI) :
  ROI_init yp xp (map Fin rl) (Some kx) (Some ky) rs = Ok roi ->
  kx <> 0%Z -> ky <> 0%Z ->
  Forall (fun l => 0 <= l) rl ->
  0 < Rsum rl ->
  returns (ROI_radii eig_finite roi).2 /\
  returns (ROI_radius eig_finite roi).2 /\
  returns (ROI_aspect_ratio eig_finite roi).2.
Proof. apply ROI_fit_returns. Qed.

Lemma ROI_radii_again (roi : ROI) (rl : list R) :
  lam roi = map Fin rl ->
  Rsum rl <> 0 ->
  ROI_radii eig_finite (ROI_radii eig_finite roi).1 = ROI_radii eig_finite roi /\
  (ROI_aspect_ratio eig_finite (ROI_radius eig_finite roi).1).2
  = (ROI_aspect_ratio eig_finite roi).2.
Proof.
  intros Hl Hs.
  assert (H : ROI_radii eig_finite (ROI_radii eig_finite roi).1
              = ROI_radii eig_finite roi).
  { destruct roi as [yp xp l kx ky rs]. cbn [lam] in Hl. subst l.
    unfold ROI_radii. cbn [dx dy ypix xpix lam].
    destruct kx as [kx|]; [| reflexivity]. destruct ky as [ky|]; [| reflexivity].
    unfold calc_radii, fitMVGaus, ROI_set_lam.
    cbn [fst snd dx dy ypix xpix lam rsort].
    rewrite normalize_inplace_twice by exact Hs. reflexivity. }
  split; [exact H |].
  unfold ROI_aspect_ratio, ROI_radius. cbn [fst snd]. rewrite H. reflexivity.
Qed.

End RoiFit.

Lemma unit_square_roi_init :
  ROI_init [0; 0; 1; 1]%Z [0; 1; 0; 1]%Z (map Fin [1; 1; 1; 1])
           (Some 1%Z) (Some 1%Z) []
  = Ok (mkROI [0; 0; 1; 1]%Z [0; 1; 0; 1]%Z (map Fin [1; 1; 1; 1])
              (Some 1%Z) (Some 1%Z) []).
Proof. apply ROI_init_ok; reflexivity. Qed.

Lemma ROI_fit_properties_return_witness :
  returns (ROI_aspect_ratio eig_symmetric
             (mkROI [0; 0; 1; 1]%Z [0; 1; 0; 1]%Z (map Fin [1; 1; 1; 1])
                    (Some 1%Z) (Some 1%Z) [])).2.
Proof.
  apply (ROI_fit_properties_return eig_symmetric _ _ [1; 1; 1; 1] 1 1 [] _
           unit_square_roi_init).
  - lia.
  - lia.
  - repeat constructor; lra.
  - unfold Rsum. simpl. lra.
Defined.

Lemma unit_square_aspect_ratio :
  exists roi' v,
    ROI_aspect_ratio eig_symmetric
      (mkROI [0; 0; 1; 1]%Z [0; 1; 0; 1]%Z (map Fin [1; 1; 1; 1])
             (Some 1%Z) (Some 1%Z) [])
    = (roi', Ok v).
Proof.
  destruct (ROI_fit_returns eig_symmetric _ _ [1; 1; 1; 1] 1 1 [] _ unit_square_roi_init)
    as (_ & _ & H); try lia.
  - repeat constructor; lra.
  - unfold Rsum. simpl. lra.
  - destruct (ROI_aspect_ratio eig_symmetric _) as [roi' [v|]]; [| destruct H].
    exists roi', v. reflexivity.
Qed.

Lemma ROI_aspect_ratio_range_witness :
  exists roi' v a,
    ROI_aspect_ratio eig_symmetric
      (mkROI [0; 0; 1; 1]%Z [0; 1; 0; 1]%Z (map Fin [1; 1; 1; 1])
             (Some 1%Z) (Some 1%Z) [])
    = (roi', Ok v) /\ v = Fin a /\ 0 <= a <= 2.
Proof.
  destruct unit_square_aspect_ratio as (roi' & v & H).
  destruct (ROI_aspect_ratio_range eig_symmetric _ _ _ H)
    as (ry & rx & a & _ & _ & Hv & Ha).
  exists roi', v, a. repeat split; assumption || apply Ha.
Defined.

(** ** [mean_r_squared] and the position of the ROI *)

Lemma Fleb_shift (c : R) (a b : float64) : Fleb (shift c a) (shift c b) = Fleb a b.
Proof.
  unfold shift. destruct a as [x|[]|], b as [y|[]|]; simpl; try reflexivity.
  unfold Rleb. destruct (Rle_dec (x + c) (y + c)), (Rle_dec x y); try reflexivity; lra.
Qed.

Lemma sort_insert_shift (c : R) (v : float64) (a : list float64) :
  sort_insert (shift c v) (map (shift c) a) = map (shift c) (sort_insert v a).
Proof.
  induction a as [|w a IH]; simpl; [reflexivity |].
  rewrite Fleb_shift. destruct (Fleb v w); simpl; [reflexivity |].
  rewrite IH. reflexivity.
Qed.

Lemma np_sort_shift (c : R) (a : list float64) :
  np_sort (map (shift c) a) = map (shift c) (np_sort a).
Proof.
  induction a as [|v a IH]; simpl; [reflexivity |].
  rewrite IH. apply sort_insert_shift.
Qed.

Lemma existsb_isnan_shift (c : R) (a : list float64) :
  existsb isnan (map (shift c) a) = existsb isnan a.
Proof.
  induction a as [|v a IH]; simpl; [reflexivity |].
  rewrite IH. f_equal. destruct v as [x|[]|]; reflexivity.
Qed.

Lemma nth_shift (c : R) (k : nat) (a : list float64) :
  nth k (map (shift c) a) NaN = shift c (nth k a NaN).
Proof. change NaN with (shift c NaN) at 1. apply map_nth. Qed.

Lemma np_mean_pair_shift (c : R) (a b : float64) :
  np_mean [shift c a; shift c b] = shift c (np_mean [a; b]).
Proof.
  unfold np_mean, np_sum, of_nat, shift. cbn [foldr length INR].
  destruct a as [x|[]|], b as [y|[]|]; cbn [Fadd Fdiv Bool.eqb xorb];
    unfold Rzero, Rneg;
    repeat match goal with
           | |- context [Req_dec_T ?u 0] => destruct (Req_dec_T u 0); try lra
           | |- context [Rlt_dec ?u 0] => destruct (Rlt_dec u 0); try lra
           end;
    cbn [Fadd xorb]; try reflexivity.
  f_equal. field.
Qed.

Lemma np_median_shift (c : R) (a : list float64) :
  np_median (map (shift c) a) = shift c (np_median a).
Proof.
  unfold np_median. rewrite existsb_isnan_shift, length_map, np_sort_shift.
  destruct (existsb isnan a); [reflexivity |].
  destruct (length a) as [|n] eqn:E; [reflexivity |].
  rewrite !nth_shift. destruct (Nat.even (S n)); [apply np_mean_pair_shift | reflexivity].
Qed.

Lemma of_int_shift (c : Z) (p : list Z) :
  map of_int (map (Z.add c) p) = map (shift (IZR c)) (map of_int p).
Proof.
  rewrite !map_map. apply map_ext. intros v.
  unfold of_int, shift. simpl. rewrite plus_IZR. f_equal. lra.
Qed.

Lemma Fsub_shift (c x : R) (m : float64) :
  Fsub (shift c (Fin x)) (shift c m) = Fsub (Fin x) m.
Proof.
  unfold Fsub, shift. destruct m as [y|[]|]; simpl; try reflexivity.
  f_equal. lra.
Qed.

Lemma centered_shift (c : R) (p : list Z) (m : float64) :
  map (fun v => Fsub v (shift c m)) (map (shift c) (map of_int p))
  = map (fun v => Fsub v m) (map of_int p).
Proof.
  rewrite !map_map. apply map_ext. intros v. unfold of_int. apply Fsub_shift.
Qed.

Lemma ROI_moved_same (yp xp : list Z) (l : list float64) (kx ky : option Z)
    (rs : list float64) (cy cx : Z) :
  let roi := mkROI yp xp l kx ky rs in
  let moved := mkROI (map (Z.add cy) yp) (map (Z.add cx) xp) l kx ky rs in
  ROI_median_pix moved
  = (Fadd (ROI_median_pix roi).1 (of_int cy), Fadd (ROI_median_pix roi).2 (of_int cx)) /\
  ROI_mean_r_squared moved = ROI_mean_r_squared roi /\
  ROI_mean_r_squared0 moved = ROI_mean_r_squared0 roi /\
  ROI_mean_r_squared_compact moved = ROI_mean_r_squared_compact roi.
Proof.
  intros roi moved.
  assert (Hmed : ROI_median_pix moved
                 = (Fadd (ROI_median_pix roi).1 (of_int cy),
                    Fadd (ROI_median_pix roi).2 (of_int cx))).
  { unfold ROI_median_pix, moved, roi. cbn [ypix xpix fst snd].
    rewrite !of_int_shift, !np_median_shift. reflexivity. }
  assert (Hmrs : ROI_mean_r_squared moved = ROI_mean_r_squared roi).
  { unfold ROI_mean_r_squared, mean_r_squared, moved, roi. cbn [ypix xpix].
    rewrite !of_int_shift, !np_median_shift, !centered_shift. reflexivity. }
  assert (Hmrs0 : ROI_mean_r_squared0 moved = ROI_mean_r_squared0 roi).
  { unfold ROI_mean_r_squared0, moved, roi. cbn [ypix rsort].
    rewrite length_map. reflexivity. }
  repeat split; try assumption.
  unfold ROI_mean_r_squared_compact. rewrite Hmrs, Hmrs0. reflexivity.
Qed.

(** X16: moving an ROI by a whole number of pixels [(cy, cx)], its pixels
    being in [pixel_range] before and after, moves its median pixel by the
    same amount and changes neither [mean_r_squared] nor [mean_r_squared0]
    nor the compactness. *)
Theorem ROI_translation (yp xp : list Z) (l : list float64) (kx ky : option Z)
    (rs : list float64) (cy cx : Z) :
  Forall pixel_range yp -> Forall pixel_range (map (Z.add cy) yp) ->
  Forall pixel_range xp -> Forall pixel_range (map (Z.add cx) xp) ->
  let roi := mkROI yp xp l kx ky rs in
  let moved := mkROI (map (Z.add cy) yp) (map (Z.add cx) xp) l kx ky rs in
  ROI_median_pix moved
  = (Fadd (ROI_median_pix roi).1 (of_int cy), Fadd (ROI_median_pix roi).2 (of_int cx)) /\
  ROI_mean_r_squared moved = ROI_mean_r_squared roi /\
  ROI_mean_r_squared0 moved = ROI_mean_r_squared0 roi /\
  ROI_mean_r_squared_compact moved = ROI_mean_r_squared_compact roi.
Proof. intros _ _ _ _. apply ROI_moved_same. Qed.

Lemma ROI_translation_witness :
  ROI_mean_r_squared (mkROI (map (Z.add 5) [0; 1]%Z) (map (Z.add 7) [0; 0]%Z)
                            [Fin 1; Fin 1] None None [])
  = ROI_mean_r_squared (mkROI [0; 1]%Z [0; 0]%Z [Fin 1; Fin 1] None None []).
Proof.
  apply (ROI_translation [0; 1]%Z [0; 0]%Z [Fin 1; Fin 1] None None [] 5 7);
    unfold pixel_range; cbn [map]; repeat constructor; lia.
Defined.

(** ** Small and empty ROIs *)

Lemma radial_reference_head (radius : Z) :
  (0 <= radius)%Z -> exists t, radial_reference radius = Fin 0 :: t.
Proof.
  intros HR.
  assert (Hzero : In (Fin 0) (radial_reference radius)).
  { apply radial_reference_In, distance_kernel_In. exists 0%Z, 0%Z.
    repeat split; try lia. f_equal. rewrite Rmult_0_l, Rplus_0_l, sqrt_0. reflexivity. }
  pose proof (radial_reference_sorted radius HR) as Hs.
  pose proof (radial_reference_bounds radius) as Hb.
  destruct (radial_reference radius) as [|h t]; [destruct Hzero |].
  exists t. f_equal.
  destruct (Hb h HR (or_introl eq_refl)) as (s & -> & Hs0 & _).
  destruct Hzero as [H0 | H0]; [exact H0 |].
  pose proof (Sorted_Fle_head_least _ _ Hs _ H0) as Hle. simpl in Hle.
  f_equal. lra.
Qed.

Lemma np_mean_singleton (v : R) : np_mean [Fin v] = Fin v.
Proof.
  unfold np_mean, np_sum, of_nat. cbn [foldr length INR Fadd Fdiv].
  unfold Rzero. destruct (Req_dec_T 1 0); [lra |]. f_equal. field.
Qed.

Lemma np_mean_empty : np_mean [] = NaN.
Proof.
  unfold np_mean, np_sum, of_nat. cbn [foldr length INR Fdiv].
  unfold Rzero. destruct (Req_dec_T 0 0); [reflexivity | contradiction].
Qed.

Lemma np_median_singleton (v : R) : np_median [Fin v] = Fin v.
Proof. reflexivity. Qed.

(** X17: an ROI of a single pixel has [mean_r_squared], the baseline
    [mean_r_squared0] and the compactness all equal to zero: the offset
    [1e-10] keeps the compactness from being [0 / 0]. *)
Theorem single_pixel_ROI (y x : Z) (l : list float64) (kx ky : option Z) :
  let roi := mkROI [y] [x] l kx ky default_rsort in
  ROI_median_pix roi = (of_int y, of_int x) /\
  ROI_mean_r_squared roi = Ok (Fin 0) /\
  ROI_mean_r_squared0 roi = Fin 0 /\
  ROI_mean_r_squared_compact roi = Ok (Fin 0).
Proof.
  intros roi.
  assert (Hmrs : ROI_mean_r_squared roi = Ok (Fin 0)).
  { unfold ROI_mean_r_squared, roi. cbn [ypix xpix map].
    rewrite mean_r_squared_same_length by reflexivity.
    unfold of_int. rewrite !np_median_singleton. cbn [map zip_with].
    unfold Fsub. cbn [Fopp Fadd]. rewrite hypot2_fin.
    replace (sqrt _) with 0; [rewrite np_mean_singleton; reflexivity |].
    symmetry. replace (_ + _) with 0 by lra. apply sqrt_0. }
  assert (Hmrs0 : ROI_mean_r_squared0 roi = Fin 0).
  { unfold ROI_mean_r_squared0, roi, default_rsort. cbn [ypix rsort length].
    destruct (radial_reference_head 30 ltac:(lia)) as (t & ->).
    cbn [firstn]. apply np_mean_singleton. }
  repeat split; try assumption.
  unfold ROI_mean_r_squared_compact. rewrite Hmrs, Hmrs0.
  cbn [mbind result_bind Fadd Fdiv]. unfold Rzero.
  destruct (Req_dec_T (1e-10 + 0) 0); [lra |]. f_equal. f_equal. lra.
Qed.

(** X18: an ROI without pixels is accepted by the constructor; its
    [mean_r_squared], its baseline, its compactness and its median pixel are
    not-a-number, and none of them raises. *)
Theorem empty_ROI (kx ky : option Z) (rs : list float64) :
  let roi := mkROI [] [] [] kx ky rs in
  ROI_init [] [] [] kx ky rs = Ok roi /\
  ROI_n_pixels roi = 0%nat /\
  ROI_median_pix roi = (NaN, NaN) /\
  ROI_mean_r_squared roi = Ok NaN /\
  ROI_mean_r_squared0 roi = NaN /\
  ROI_mean_r_squared_compact roi = Ok NaN.
Proof.
  intros roi.
  assert (Hmrs : ROI_mean_r_squared roi = Ok NaN).
  { unfold ROI_mean_r_squared, roi. cbn [ypix xpix map].
    rewrite mean_r_squared_same_length by reflexivity.
    cbn [map zip_with]. rewrite np_mean_empty. reflexivity. }
  assert (Hmrs0 : ROI_mean_r_squared0 roi = NaN).
  { unfold ROI_mean_r_squared0, roi. cbn [ypix rsort length firstn].
    apply np_mean_empty. }
  repeat split; try assumption; try reflexivity.
  unfold ROI_mean_r_squared_compact. rewrite Hmrs, Hmrs0. reflexivity.
Qed.

(** ** ROIs with at least one pixel *)

Lemma existsb_isnan_fin (a : list R) : existsb isnan (map Fin a) = false.
Proof. induction a as [|v a IH]; simpl; [reflexivity | exact IH]. Qed.

Lemma nth_finite (k : nat) (a : list float64) :
  Forall (fun v => isfinite v = true) a -> (k < length a)%nat ->
  exists r, nth k a NaN = Fin r.
Proof.
  intros Ha. revert k. induction Ha as [|v a Hv _ IH]; intros k Hk; simpl in Hk.
  - lia.
  - destruct k as [|k]; simpl.
    + destruct v as [r| |]; try discriminate. exists r. reflexivity.
    + apply IH. lia.
Qed.

Lemma np_sort_finite (a : list R) :
  Forall (fun v => isfinite v = true) (np_sort (map Fin a)).
Proof.
  eapply Permutation_Forall; [symmetry; apply np_sort_perm |].
  apply Forall_map. apply Forall_forall. intros v _. reflexivity.
Qed.

Lemma np_mean_pair_fin (a b : R) : exists m, np_mean [Fin a; Fin b] = Fin m.
Proof.
  unfold np_mean, np_sum, of_nat. cbn [foldr length INR Fadd Fdiv].
  unfold Rzero. destruct (Req_dec_T (1 + 1) 0); [lra |]. eexists. reflexivity.
Qed.

Lemma np_median_fin (a : list R) :
  a <> [] -> exists m, np_median (map Fin a) = Fin m.
Proof.
  intros Hne. unfold np_median. rewrite existsb_isnan_fin, length_map.
  destruct (length a) as [|n] eqn:E; [destruct a; [congruence | discriminate] |].
  pose proof (np_sort_finite a) as Hf.
  assert (Hlen : length (np_sort (map Fin a)) = S n)
    by (rewrite np_sort_length, length_map; exact E).
  assert (H2 : (S n / 2 < S n)%nat) by (apply Nat.div_lt; lia).
  destruct (nth_finite (S n / 2) _ Hf ltac:(lia)) as (r2 & ->).
  destruct (Nat.even (S n)); [| exists r2; reflexivity].
  destruct (nth_finite (S n / 2 - 1) _ Hf ltac:(lia)) as (r1 & ->).
  apply np_mean_pair_fin.
Qed.

Lemma Rsum_nonneg (a : list R) : Forall (fun v => 0 <= v) a -> 0 <= Rsum a.
Proof.
  unfold Rsum. induction 1 as [|v a Hv _ IH]; simpl; lra.
Qed.

Lemma np_mean_fin_nonneg (a : list R) :
  a <> [] -> Forall (fun v => 0 <= v) a ->
  np_mean (map Fin a) = Fin (Rsum a / INR (length a)) /\
  0 <= Rsum a / INR (length a).
Proof.
  intros Hne Ha.
  assert (Hn : 0 < INR (length a)).
  { apply lt_0_INR. destruct a; [congruence | simpl; lia]. }
  split.
  - unfold np_mean, of_nat. rewrite np_sum_fin, length_map.
    unfold Fdiv, Rzero. destruct (Req_dec_T (INR (length a)) 0); [lra | reflexivity].
  - apply Rmult_le_pos; [apply Rsum_nonneg, Ha |].
    apply Rlt_le, Rinv_0_lt_compat, Hn.
Qed.

Lemma nonneg_as_reals (a : list float64) :
  Forall (fun e => exists s, e = Fin s /\ 0 <= s) a ->
  exists sl, a = map Fin sl /\ Forall (fun v => 0 <= v) sl.
Proof.
  induction 1 as [|e a (s & -> & Hs) _ (sl & -> & Hsl)].
  - exists []. split; [reflexivity | constructor].
  - exists (s :: sl). split; [reflexivity | constructor; assumption].
Qed.

Lemma distances_nonneg (my mx : R) (yp xp : list Z) :
  Forall (fun e => exists s, e = Fin s /\ 0 <= s)
         (zip_with hypot2 (map (fun v => Fsub v (Fin my)) (map of_int yp))
                          (map (fun v => Fsub v (Fin mx)) (map of_int xp))).
Proof.
  revert xp. induction yp as [|y yp IH]; intros [|x xp]; simpl; constructor.
  - unfold of_int, Fsub. cbn [Fopp Fadd]. rewrite hypot2_fin.
    eexists. split; [reflexivity | apply sqrt_pos].
  - apply IH.
Qed.

(** X19: an ROI with at least one pixel, built on a radial reference table,
    has finite non-negative [mean_r_squared] and [mean_r_squared0], and its
    compactness is the finite quotient [mrs / (1e-10 + mrs0)]. *)
Theorem nonempty_ROI_finite (yp xp : list Z) (l : list float64) (kx ky : option Z)
    (radius : Z) (roi : ROI) :
  ROI_init yp xp l kx ky (radial_reference radius) = Ok roi ->
  (0 <= radius)%Z ->
  (1 <= ROI_n_pixels roi)%nat ->
  exists m m0,
    ROI_mean_r_squared roi = Ok (Fin m) /\
    ROI_mean_r_squared0 roi = Fin m0 /\
    ROI_mean_r_squared_compact roi = Ok (Fin (m / (1e-10 + m0))) /\
    0 <= m /\ 0 <= m0.
Proof.
  intros Hinit HR Hn. apply ROI_init_inv in Hinit as (-> & Hyx & Hl).
  unfold ROI_n_pixels in Hn. cbn [xpix] in Hn.
  assert (Hyne : yp <> []) by (destruct yp; [simpl in Hyx; lia | discriminate]).
  assert (Hxne : xp <> []) by (destruct xp; [simpl in Hn; lia | discriminate]).
  (* mean_r_squared *)
  assert (Hmrs : exists m, ROI_mean_r_squared
                             (mkROI yp xp l kx ky (radial_reference radius))
                           = Ok (Fin m) /\ 0 <= m).
  { unfold ROI_mean_r_squared. cbn [ypix xpix].
    rewrite mean_r_squared_same_length by (rewrite !length_map; congruence).
    unfold of_int at 1 3. rewrite <- !(map_map IZR Fin).
    destruct (np_median_fin (map IZR yp)) as (my & ->);
      [destruct yp; [congruence | discriminate] |].
    destruct (np_median_fin (map IZR xp)) as (mx & ->);
      [destruct xp; [congruence | discriminate] |].
    rewrite !(map_map IZR Fin). fold of_int.
    destruct (nonneg_as_reals _ (distances_nonneg my mx yp xp)) as (dl & Hd & Hdl).
    rewrite Hd.
    assert (Hdne : dl <> []).
    { intros ->. apply (f_equal length) in Hd.
      rewrite length_zip_with, !length_map in Hd. simpl in Hd.
      destruct yp, xp; simpl in *; congruence || lia. }
    destruct (np_mean_fin_nonneg dl Hdne Hdl) as (-> & Hm).
    eexists. split; [reflexivity | exact Hm]. }
  (* mean_r_squared0 *)
  assert (Hmrs0 : exists m0, ROI_mean_r_squared0
                               (mkROI yp xp l kx ky (radial_reference radius))
                             = Fin m0 /\ 0 <= m0).
  { unfold ROI_mean_r_squared0. cbn [ypix rsort].
    assert (Hall : Forall (fun e => exists s, e = Fin s /\ 0 <= s)
                          (radial_reference radius)).
    { apply Forall_forall. intros e He. apply list_elem_of_In in He.
      destruct (radial_reference_bounds radius e HR He) as (s & -> & Hs & _).
      exists s. split; [reflexivity | exact Hs]. }
    destruct (nonneg_as_reals _ Hall) as (sl & Hsl & Hnn).
    destruct (radial_reference_head radius HR) as (t & Ht).
    rewrite Hsl. rewrite firstn_map.
    assert (Hfne : firstn (length yp) sl <> []).
    { destruct sl as [|s0 sl]; [rewrite Ht in Hsl; discriminate |].
      destruct yp; [congruence | discriminate]. }
    assert (Hfnn : Forall (fun v => 0 <= v) (firstn (length yp) sl)).
    { apply Forall_take, Hnn. }
    destruct (np_mean_fin_nonneg _ Hfne Hfnn) as (-> & Hm0).
    eexists. split; [reflexivity | exact Hm0]. }
  destruct Hmrs as (m & Hm & Hm_pos). destruct Hmrs0 as (m0 & Hm0 & Hm0_pos).
  exists m, m0. repeat split; try assumption.
  unfold ROI_mean_r_squared_compact. rewrite Hm, Hm0.
  cbn [mbind result_bind Fadd Fdiv]. unfold Rzero.
  destruct (Req_dec_T (1e-10 + m0) 0); [lra | reflexivity].
Qed.

Lemma nonempty_ROI_finite_witness :
  exists m m0,
    ROI_mean_r_squared0
      (mkROI [0; 0; 1; 1]%Z [0; 1; 0; 1]%Z [Fin 1; Fin 1; Fin 1; Fin 1]
             None None (radial_reference 30)) = Fin m0 /\
    ROI_mean_r_squared
      (mkROI [0; 0; 1; 1]%Z [0; 1; 0; 1]%Z [Fin 1; Fin 1; Fin 1; Fin 1]
             None None (radial_reference 30)) = Ok (Fin m).
Proof.
  destruct (nonempty_ROI_finite
              [0; 0; 1; 1]%Z [0; 1; 0; 1]%Z [Fin 1; Fin 1; Fin 1; Fin 1]
              None None 30 _
              (ROI_init_ok [0; 0; 1; 1]%Z [0; 1; 0; 1]%Z [Fin 1; Fin 1; Fin 1; Fin 1]
                           None None (radial_reference 30) eq_refl eq_refl)
              ltac:(lia) ltac:(unfold ROI_n_pixels; cbn [xpix length]; lia))
    as (m & m0 & Hm & Hm0 & _).
  exists m, m0. split; assumption.
Defined.

(** ** The compactness of an ROI *)

Lemma finite_as_reals (a : list float64) :
  Forall (fun v => isfinite v = true) a -> exists sl, a = map Fin sl.
Proof.
  induction 1 as [|v a Hv _ (sl & ->)]; [exists []; reflexivity |].
  destruct v as [r| |]; try discriminate. exists (r :: sl). reflexivity.
Qed.

(** [np.sort] on finite numbers: the same numbers, in ascending order. *)
Lemma np_sort_reals (rl : list R) :
  exists sl, np_sort (map Fin rl) = map Fin sl /\
             Permutation rl sl /\ Sorted Fle (map Fin sl).
Proof.
  destruct (finite_as_reals _ (np_sort_finite rl)) as (sl & Hsl).
  exists sl. split; [exact Hsl |]. split.
  - pose proof (np_sort_perm (map Fin rl)) as Hp. rewrite Hsl in Hp.
    apply (Permutation_map (fun v => match v with Fin r => r | _ => 0 end)) in Hp.
    rewrite !map_map in Hp. cbn beta iota in Hp. rewrite !List.map_id in Hp.
    symmetry. exact Hp.
  - rewrite <- Hsl. apply Sorted_Fleb_finite; [apply np_sort_finite | apply np_sort_sorted].
Qed.

Lemma Sorted_Fle_above (sl : list R) (k : nat) (x : R) :
  Sorted Fle (map Fin sl) -> sl !! k = Some x ->
  Forall (fun v => x <= v) (skipn k sl).
Proof.
  intros Hs Hx. rewrite (drop_S sl x k Hx). constructor; [lra |].
  apply Forall_forall. intros v Hv.
  pose proof (Sorted_Fle_split (S k) (map Fin sl) Hs (Fin x) (Fin v)) as H.
  cbn [Fle] in H. apply H.
  - rewrite firstn_map. apply in_map. rewrite (take_S_r sl k x Hx).
    apply in_or_app. right. left. reflexivity.
  - rewrite skipn_map. apply in_map, list_elem_of_In, Hv.
Qed.

Lemma Sorted_Fle_prefix (sl : list R) (k : nat) (x : R) :
  Sorted Fle (map Fin sl) -> sl !! k = Some x ->
  In x (firstn (S k) sl) /\ Forall (fun v => v <= x) (firstn (S k) sl).
Proof.
  intros Hs Hx. rewrite (take_S_r sl k x Hx). split.
  - apply in_or_app. right. left. reflexivity.
  - apply Forall_app. split; [eapply Sorted_Fle_reals; eassumption |].
    constructor; [lra | constructor].
Qed.

Lemma nth_reals (sl : list R) (k : nat) (x : R) :
  sl !! k = Some x -> nth k (map Fin sl) NaN = Fin x.
Proof. intros H. rewrite nth_lookup, lookup_map, H. reflexivity. Qed.

Lemma np_mean_pair (u v : R) : np_mean [Fin u; Fin v] = Fin ((u + v) / 2).
Proof.
  unfold np_mean, np_sum, of_nat. cbn [foldr length INR Fadd Fdiv].
  unfold Rzero. destruct (Req_dec_T (1 + 1) 0); [lra |]. f_equal. lra.
Qed.

(** [np.median] on finite numbers is their median. *)
Lemma np_median_is_median (rl : list R) :
  rl <> [] -> exists m, np_median (map Fin rl) = Fin m /\ is_median m rl.
Proof.
  intros Hne. destruct (np_sort_reals rl) as (sl & Hsort & Hperm & Hs).
  unfold np_median. rewrite existsb_isnan_fin, length_map, Hsort.
  assert (Hlen : length sl = length rl) by (symmetry; apply Permutation_length, Hperm).
  destruct (length rl) as [|n'] eqn:En; [destruct rl; [congruence | discriminate] |].
  destruct (Nat.even (S n')) eqn:Ev.
  - apply Nat.even_spec in Ev as [k Hk].
    destruct k as [|k0]; [lia |].
    assert (Hdiv : (S n' / 2 = S k0)%nat).
    { rewrite Hk, Nat.mul_comm. apply Nat.div_mul. lia. }
    rewrite Hdiv. replace (S k0 - 1)%nat with k0 by lia.
    destruct (lookup_lt_is_Some_2 sl k0 ltac:(lia)) as (u & Hu).
    destruct (lookup_lt_is_Some_2 sl (S k0) ltac:(lia)) as (v & Hv).
    rewrite (nth_reals sl k0 u Hu), (nth_reals sl (S k0) v Hv), np_mean_pair.
    eexists. split; [reflexivity |].
    destruct (Sorted_Fle_prefix sl k0 u Hs Hu) as (Hin & Hlo).
    pose proof (Sorted_Fle_above sl (S k0) v Hs Hv) as Hhi.
    exists (firstn (S k0) sl), (skipn (S k0) sl), u.
    split; [rewrite firstn_skipn; exact Hperm |].
    split; [exact Hin |]. split; [exact Hlo |]. right.
    split; [rewrite length_take, length_drop; lia |].
    exists v. split; [rewrite (drop_S sl v (S k0) Hv); left; reflexivity |].
    split; [exact Hhi |]. split; [| reflexivity].
    pose proof (Sorted_Fle_reals sl (S k0) v Hs Hv) as Hle.
    rewrite Forall_forall in Hle. apply Hle, list_elem_of_In, Hin.
  - assert (Hodd : Nat.odd (S n') = true) by (rewrite <- Nat.negb_even, Ev; reflexivity).
    apply Nat.odd_spec in Hodd as [k Hk].
    assert (Hdiv : (S n' / 2 = k)%nat).
    { symmetry. apply (Nat.div_unique (S n') 2 k 1); lia. }
    rewrite Hdiv.
    destruct (lookup_lt_is_Some_2 sl k ltac:(lia)) as (u & Hu).
    rewrite (nth_reals sl k u Hu).
    exists u. split; [reflexivity |].
    destruct (Sorted_Fle_prefix sl k u Hs Hu) as (Hin & Hlo).
    pose proof (Sorted_Fle_above sl k u Hs Hu) as Hhi.
    rewrite (drop_S sl u k Hu) in Hhi. apply Forall_cons in Hhi as [_ Hhi'].
    exists (firstn (S k) sl), (skipn (S k) sl), u.
    split; [rewrite firstn_skipn; exact Hperm |].
    split; [exact Hin |]. split; [exact Hlo |]. left.
    split; [rewrite length_take, length_drop; lia |].
    split; [exact Hhi' | reflexivity].
Qed.

(** The mean distance of pixels from a finite centre, in real numbers. *)
Lemma mean_distance_from_reals (my mx : R) (pixels : list (Z * Z)) :
  pixels <> [] ->
  mean_distance_from (Fin my, Fin mx) pixels
  = Fin (Rsum (map (fun p => sqrt ((IZR p.1 - my) * (IZR p.1 - my)
                                   + (IZR p.2 - mx) * (IZR p.2 - mx))) pixels)
         / INR (length pixels)).
Proof.
  intros Hne. unfold mean_distance_from. cbn [fst snd].
  set (dist := fun p : Z * Z => sqrt ((IZR p.1 - my) * (IZR p.1 - my)
                                      + (IZR p.2 - mx) * (IZR p.2 - mx))).
  assert (Hd : map (fun p : Z * Z => hypot2 (Fsub (of_int p.1) (Fin my))
                                            (Fsub (of_int p.2) (Fin mx))) pixels
               = map Fin (map dist pixels)).
  { rewrite map_map. apply map_ext. intros p. unfold of_int, Fsub. cbn [Fopp Fadd].
    apply hypot2_fin. }
  rewrite Hd.
  assert (Hdne : map dist pixels <> []) by (destruct pixels; [congruence | discriminate]).
  assert (Hnn : Forall (fun v => 0 <= v) (map dist pixels)).
  { apply Forall_map. apply Forall_forall. intros p _. apply sqrt_pos. }
  destruct (np_mean_fin_nonneg _ Hdne Hnn) as (-> & _).
  rewrite length_map. reflexivity.
Qed.

(** C4, as stated, fails on an ROI of more pixels than the table has
    entries: with [4000] pixels there are no [4000] entries to take the mean
    of, and the baseline is the mean of all [3721]. *)
Lemma mean_r_squared0_lacks_entries :
  let roi := mkROI (repeat 0%Z 4000) (repeat 0%Z 4000) (repeat (Fin 1) 4000)
                   None None default_rsort in
  ROI_init (repeat 0%Z 4000) (repeat 0%Z 4000) (repeat (Fin 1) 4000)
           None None default_rsort = Ok roi /\
  ROI_n_pixels roi = 4000%nat /\
  length (rsort roi) = 3721%nat /\
  ROI_mean_r_squared0 roi = np_mean (rsort roi) /\
  ~ exists sel, smallest_entries (ROI_n_pixels roi) (rsort roi) sel.
Proof.
  intros roi.
  assert (Hlen : length default_rsort = 3721%nat).
  { unfold default_rsort. rewrite radial_reference_length by lia. reflexivity. }
  assert (Hn : ROI_n_pixels roi = 4000%nat).
  { unfold ROI_n_pixels, roi. cbn [xpix]. apply repeat_length. }
  split; [apply ROI_init_ok; rewrite !repeat_length; reflexivity |].
  split; [exact Hn |]. split; [exact Hlen |]. split.
  - unfold ROI_mean_r_squared0, roi. cbn [ypix rsort].
    rewrite firstn_all2 by (rewrite repeat_length, Hlen; lia). reflexivity.
  - intros (sel & Hsel & rest & Hperm & _).
    apply Permutation_length in Hperm. rewrite length_app in Hperm.
    unfold roi in Hperm. cbn [rsort] in Hperm. lia.
Qed.

(** C4, amended: for an ROI on a radial reference table (radius [R >= 0],
    [(2R+1)^2] entries) the compactness is [mean_r_squared] divided by
    [mean_r_squared0 + 1e-10].  The baseline [mean_r_squared0] is the mean
    of the smallest entries of the table, as many as the ROI has pixels and
    at most as many as the table has entries.  [mean_r_squared] is the mean
    distance of the pixels from the median pixel; for pixels in
    [pixel_range], at least one of them, the median pixel is the pair of
    the medians of the two coordinates and the distance is the Euclidean
    one. *)
Theorem mean_r_squared_compact_formula (yp xp : list Z) (weights : list float64)
    (kx ky : option Z) (radius : Z) (roi : ROI) :
  ROI_init yp xp weights kx ky (radial_reference radius) = Ok roi ->
  (0 <= radius)%Z ->
  exists mrs sel,
    ROI_mean_r_squared roi = Ok mrs /\
    ROI_mean_r_squared_compact roi
    = Ok (Fdiv mrs (Fadd (ROI_mean_r_squared0 roi) (Fin 1e-10))) /\
    ROI_mean_r_squared0 roi = np_mean sel /\
    smallest_entries (Nat.min (ROI_n_pixels roi) (length (radial_reference radius)))
                     (radial_reference radius) sel /\
    length (radial_reference radius) = Z.to_nat ((2 * radius + 1) ^ 2) /\
    mrs = mean_distance_from (ROI_median_pix roi) (zip yp xp) /\
    ((1 <= ROI_n_pixels roi)%nat -> Forall pixel_range yp -> Forall pixel_range xp ->
     exists my mx,
       ROI_median_pix roi = (Fin my, Fin mx) /\
       is_median my (map IZR yp) /\ is_median mx (map IZR xp) /\
       mrs = Fin (Rsum (map (fun p => sqrt ((IZR p.1 - my) * (IZR p.1 - my)
                                            + (IZR p.2 - mx) * (IZR p.2 - mx)))
                            (zip yp xp))
                  / INR (ROI_n_pixels roi))).
Proof.
  intros Hinit HR. apply ROI_init_inv in Hinit as (-> & Hyx & Hl).
  exists (mean_distance_from
            (ROI_median_pix (mkROI yp xp weights kx ky (radial_reference radius)))
            (zip yp xp)),
         (firstn (length yp) (radial_reference radius)).
  split; [apply ROI_mean_r_squared_valid, Hyx |].
  split.
  { unfold ROI_mean_r_squared_compact.
    rewrite ROI_mean_r_squared_valid by exact Hyx. cbn [mbind result_bind].
    rewrite Fadd_comm. reflexivity. }
  split; [reflexivity |].
  split.
  { unfold ROI_n_pixels. cbn [xpix]. rewrite Hyx. split; [apply length_take |].
    exists (skipn (length yp) (radial_reference radius)).
    split; [rewrite firstn_skipn; reflexivity |].
    apply Sorted_Fle_split, radial_reference_sorted, HR. }
  split; [apply radial_reference_length, HR |].
  split; [reflexivity |].
  unfold ROI_n_pixels. cbn [xpix]. intros Hn _ _.
  assert (Hyne : map IZR yp <> []) by (destruct yp; [simpl in Hyx; lia | discriminate]).
  assert (Hxne : map IZR xp <> []) by (destruct xp; [simpl in Hn; lia | discriminate]).
  destruct (np_median_is_median _ Hyne) as (my & Ey & Hmy).
  destruct (np_median_is_median _ Hxne) as (mx & Ex & Hmx).
  assert (Hmed : ROI_median_pix (mkROI yp xp weights kx ky (radial_reference radius))
                 = (Fin my, Fin mx)).
  { unfold ROI_median_pix. cbn [ypix xpix]. unfold of_int.
    rewrite <- !(map_map IZR Fin), Ey, Ex. reflexivity. }
  exists my, mx. split; [exact Hmed |]. split; [exact Hmy |]. split; [exact Hmx |].
  rewrite Hmed, mean_distance_from_reals.
  - rewrite length_zip. rewrite <- Hyx, Nat.min_id. reflexivity.
  - destruct yp, xp; simpl in *; congruence || lia || discriminate.
Qed.

Lemma mean_r_squared_compact_formula_witness :
  exists mrs,
    ROI_mean_r_squared (mkROI [0; 0; 1; 1]%Z [0; 1; 0; 1]%Z
                              [Fin 1; Fin 1; Fin 1; Fin 1] None None
                              (radial_reference 30))
    = Ok mrs.
Proof.
  destruct (mean_r_squared_compact_formula
              [0; 0; 1; 1]%Z [0; 1; 0; 1]%Z [Fin 1; Fin 1; Fin 1; Fin 1]
              None None 30 _
              (ROI_init_ok [0; 0; 1; 1]%Z [0; 1; 0; 1]%Z [Fin 1; Fin 1; Fin 1; Fin 1]
                           None None (radial_reference 30) eq_refl eq_refl)
              ltac:(lia))
    as (mrs & sel & H & _).
  exists mrs. exact H.
Defined.

(** * Further properties of the distance kernel *)

Lemma np_arange_lookup (lo hi : Z) (i : nat) :
  (i < Z.to_nat (hi - lo))%nat ->
  np_arange lo hi !! i = Some (lo + Z.of_nat i)%Z.
Proof.
  intros Hi. unfold np_arange. rewrite lookup_map.
  rewrite lookup_seq_lt by exact Hi. reflexivity.
Qed.

(** X20: for a radius [R >= 0] the kernel is a square array of side [2R+1]
    whose cell [(i, j)] holds the distance of [(i - R, j - R)] from the
    origin; it is symmetric, and its centre cell [(R, R)] holds zero. *)
Theorem distance_kernel_cell (radius : Z) (i j : nat) :
  (0 <= radius)%Z ->
  (Z.of_nat i <= 2 * radius)%Z ->
  (Z.of_nat j <= 2 * radius)%Z ->
  let cell (a b : nat) := distance_kernel radius !! a ≫= (fun row => row !! b) in
  length (distance_kernel radius) = Z.to_nat (2 * radius + 1) /\
  Forall (fun row => length row = Z.to_nat (2 * radius + 1)) (distance_kernel radius) /\
  cell i j = Some (Fin (sqrt (IZR (Z.of_nat j - radius) * IZR (Z.of_nat j - radius)
                              + IZR (Z.of_nat i - radius) * IZR (Z.of_nat i - radius)))) /\
  cell i j = cell j i /\
  cell (Z.to_nat radius) (Z.to_nat radius) = Some (Fin 0).
Proof.
  intros HR Hi Hj cell.
  assert (Hcell : forall a b, (Z.of_nat a <= 2 * radius)%Z -> (Z.of_nat b <= 2 * radius)%Z ->
            cell a b = Some (Fin (sqrt (IZR (Z.of_nat b - radius) * IZR (Z.of_nat b - radius)
                                        + IZR (Z.of_nat a - radius) * IZR (Z.of_nat a - radius))))).
  { intros a b Ha Hb. unfold cell, distance_kernel.
    rewrite lookup_map, np_arange_lookup by lia. cbn [fmap option_fmap option_map mbind option_bind].
    rewrite lookup_map, np_arange_lookup by lia. cbn [fmap option_fmap option_map].
    unfold of_int. rewrite hypot2_fin.
    replace (- radius + Z.of_nat b)%Z with (Z.of_nat b - radius)%Z by lia.
    replace (- radius + Z.of_nat a)%Z with (Z.of_nat a - radius)%Z by lia.
    reflexivity. }
  split; [| split; [| split; [| split]]].
  - unfold distance_kernel. rewrite length_map, np_arange_length. f_equal. lia.
  - unfold distance_kernel. apply Forall_map. apply Forall_forall. intros yi _.
    simpl. rewrite length_map, np_arange_length. f_equal. lia.
  - apply Hcell; assumption.
  - rewrite !Hcell by assumption. f_equal. f_equal. f_equal. lra.
  - rewrite Hcell by lia. f_equal. f_equal.
    replace (Z.of_nat (Z.to_nat radius) - radius)%Z with 0%Z by lia.
    rewrite Rmult_0_l, Rplus_0_l. apply sqrt_0.
Qed.

Lemma distance_kernel_cell_witness :
  distance_kernel 30 !! 0%nat ≫= (fun row => row !! 30%nat)
  = Some (Fin (sqrt (IZR (Z.of_nat 30 - 30) * IZR (Z.of_nat 30 - 30)
                     + IZR (Z.of_nat 0 - 30) * IZR (Z.of_nat 0 - 30)))).
Proof.
  apply (distance_kernel_cell 30 0 30); lia.
Defined.

(** * Further properties of the batch adapter *)

Lemma for_each_raise {A B} (f : A -> result B) (pre post : list A) (a : A)
    (pre' : list B) (e : exn) :
  for_each f pre = Ok pre' -> f a = Raise e ->
  for_each f (pre ++ a :: post) = Raise e.
Proof.
  revert pre'. induction pre as [|p pre IH]; simpl; intros pre' Hpre Ha.
  - rewrite Ha. reflexivity.
  - destruct (f p) as [b|]; [| discriminate]. cbn [mbind result_bind] in *.
    destruct (for_each f pre) as [bs|]; [| discriminate].
    rewrite (IH bs eq_refl Ha). reflexivity.
Qed.

Lemma for_each_raises_at {A B} (f : A -> result B) (pre post : list A) (a : A) :
  raises (f a) -> raises (for_each f (pre ++ a :: post)).
Proof.
  intros Ha. induction pre as [|p pre IH]; simpl.
  - destruct (f a); [destruct Ha | exact I].
  - destruct (f p) as [b|]; [| exact I]. cbn [mbind result_bind].
    destruct (for_each f (pre ++ a :: post)); [destruct IH | exact I].
Qed.

Lemma roi_of_record_inv (ky kx : Z) (s : gmap string value) (r : ROI) :
  roi_of_record ky kx s = Ok r ->
  s !! "ypix" = Some (VIntArray (ypix r)) /\
  s !! "xpix" = Some (VIntArray (xpix r)) /\
  s !! "lam" = Some (VFloatArray (lam r)) /\
  dx r = Some kx /\ dy r = Some ky /\ rsort r = default_rsort /\
  length (xpix r) = length (ypix r) /\ length (xpix r) = length (lam r).
Proof.
  unfold roi_of_record, get. intros H.
  destruct (s !! "ypix") as [[yp| | | |]|]; try discriminate.
  destruct (s !! "xpix") as [[xp| | | |]|]; try discriminate.
  destruct (s !! "lam") as [[|l | | |]|]; try discriminate.
  cbn [mbind result_bind as_int_array as_float_array] in H.
  apply ROI_init_inv in H as (-> & H1 & H2). repeat split; assumption.
Qed.

Lemma roi_of_record_missing (ky kx : Z) (s : gmap string value) :
  s !! "ypix" = None -> roi_of_record ky kx s = Raise (KeyError "ypix").
Proof. intros H. unfold roi_of_record, get. rewrite H. reflexivity. Qed.

Section BatchMore.

Variable eig_finite : (R * R) * (R * R) -> (R * R) * ((R * R) * (R * R)).

Lemma ROI_radius_lam (r : ROI) (kx ky : Z) :
  dx r = Some kx -> dy r = Some ky ->
  lam (ROI_radius eig_finite r).1 = normalize_inplace (lam r) /\
  lam (ROI_aspect_ratio eig_finite r).1 = normalize_inplace (lam r) /\
  dx (ROI_radius eig_finite r).1 = Some kx /\
  dy (ROI_radius eig_finite r).1 = Some ky.
Proof.
  intros Hx Hy. unfold ROI_radius, ROI_aspect_ratio, ROI_radii.
  rewrite Hx, Hy. unfold calc_radii, fitMVGaus, ROI_set_lam.
  cbn [fst snd lam dx dy]. repeat split; assumption.
Qed.

(** The record the first loop leaves, in full. *)
Lemma roi_stats_record_inv (ky kx : Z) (s s1 : gmap string value) :
  roi_stats_record eig_finite ky kx s = Ok s1 ->
  exists r m c,
    roi_of_record ky kx s = Ok r /\
    ROI_mean_r_squared r = Ok m /\
    ROI_mean_r_squared_compact r = Ok c /\
    let base :=
      <["npix" := VInt (Z.of_nat (ROI_n_pixels r))]>
        (<["med" := VList [(ROI_median_pix r).1; (ROI_median_pix r).2]]>
           (<["compact" := VFloat c]>
              (<["mrs0" := VFloat (ROI_mean_r_squared0 r)]>
                 (<["mrs" := VFloat m]> s)))) in
    (is_Some (s !! "radius") /\ s1 = base) \/
    (s !! "radius" = None /\
     exists radius ar,
       s1 = <["aspect_ratio" := VFloat ar]>
              (<["lam" := VFloatArray (normalize_inplace (normalize_inplace (lam r)))]>
                 (<["radius" := VFloat radius]>
                    (<["lam" := VFloatArray (normalize_inplace (lam r))]> base)))).
Proof.
  unfold roi_stats_record. intros H.
  destruct (roi_of_record ky kx s) as [r|] eqn:Er; [| discriminate].
  cbn [mbind result_bind] in H.
  destruct (ROI_mean_r_squared r) as [m|] eqn:Em; [| discriminate].
  cbn [mbind result_bind] in H.
  destruct (ROI_mean_r_squared_compact r) as [c|] eqn:Ec; [| discriminate].
  cbn [mbind result_bind] in H.
  exists r, m, c. split; [reflexivity |]. split; [exact Em |]. split; [exact Ec |].
  cbv zeta.
  apply roi_of_record_inv in Er as (_ & _ & _ & Hdx & Hdy & _).
  destruct (ROI_radius_lam r kx ky Hdx Hdy) as (L1 & _ & Hdx1 & Hdy1).
  destruct (ROI_radius_lam (ROI_radius eig_finite r).1 kx ky Hdx1 Hdy1) as (_ & L2 & _).
  rewrite L1 in L2.
  match type of H with
  | match ?l with _ => _ end = _ =>
      assert (Hl : l = s !! "radius") by lookup_inserted; rewrite Hl in H
  end.
  destruct (s !! "radius") as [v|] eqn:Erad.
  - left. injection H as <-. split; [eexists; reflexivity | reflexivity].
  - right. split; [reflexivity |].
    rewrite L1, L2 in H.
    destruct (ROI_radius eig_finite r).2 as [radius|]; [| discriminate].
    cbn [mbind result_bind] in H.
    destruct (ROI_aspect_ratio eig_finite (ROI_radius eig_finite r).1).2 as [ar|];
      [| discriminate].
    cbn [mbind result_bind] in H. injection H as <-.
    exists radius, ar. reflexivity.
Qed.

Lemma roi_stats_inv (ky kx : Z) (stats out : list (gmap string value)) :
  roi_stats eig_finite ky kx stats = Ok out ->
  exists stats1 mrs npix,
    for_each (roi_stats_record eig_finite ky kx) stats = Ok stats1 /\
    for_each (fun stat => get stat "mrs" ≫= as_float) stats1 = Ok mrs /\
    for_each (fun stat => get stat "npix" ≫= as_float) stats1 = Ok npix /\
    out = zip_with (fun stat n => roi_stats_normed stat n.1 n.2) stats1
            (zip (norm_by_average mrs np_nanmedian (Fin 1e-10) (Some 100%nat))
                 (norm_by_average npix default_estimator (Fin 0) (Some 100%nat))).
Proof.
  unfold roi_stats. intros H.
  destruct (for_each (roi_stats_record eig_finite ky kx) stats) as [stats1|] eqn:E1;
    [| discriminate]. cbn [mbind result_bind] in H.
  destruct (for_each (fun stat => get stat "mrs" ≫= as_float) stats1) as [mrs|] eqn:E2;
    [| discriminate]. cbn [mbind result_bind] in H.
  destruct (for_each (fun stat => get stat "npix" ≫= as_float) stats1) as [npix|] eqn:E3;
    [| discriminate]. cbn [mbind result_bind] in H.
  injection H as <-. exists stats1, mrs, npix. repeat split; assumption.
Qed.

(** The record at one position of the result: the record of the first loop
    with the two normalized values put in. *)
Lemma roi_stats_at (ky kx : Z) (stats out : list (gmap string value)) :
  roi_stats eig_finite ky kx stats = Ok out ->
  exists d1 d2 : float64,
    forall i s o, stats !! i = Some s -> out !! i = Some o ->
      exists s1 r m,
        roi_stats_record eig_finite ky kx s = Ok s1 /\
        roi_of_record ky kx s = Ok r /\
        ROI_mean_r_squared r = Ok m /\
        o = roi_stats_normed s1 (Fdiv m d1)
              (Fdiv (of_int (Z.of_nat (ROI_n_pixels r))) d2).
Proof.
  intros H. apply roi_stats_inv in H as (stats1 & mrs & npix & E1 & E2 & E3 & ->).
  exists (Fadd (np_nanmedian (firstn 100 mrs)) (Fin 1e-10)),
         (Fadd (default_estimator (firstn 100 npix)) (Fin 0)).
  intros i s o Hs Ho.
  destruct (roi_stats_pointwise eig_finite ky kx stats stats1 mrs npix i s E1 E2 E3 Hs)
    as (s1 & r & m & Hs1 & Hr & Hm & Hlm & Hln & _).
  apply lookup_zip_with_Some in Ho as (s1' & n & -> & Hs1' & Hn).
  rewrite Hs1 in Hs1'. injection Hs1' as <-.
  unfold zip in Hn. apply lookup_zip_with_Some in Hn as (a & b & -> & Ha & Hb).
  rewrite norm_by_average_lookup, Hlm in Ha. rewrite norm_by_average_lookup, Hln in Hb.
  cbn in Ha, Hb. injection Ha as <-. injection Hb as <-.
  exists s1, r, m. repeat split; try assumption.
  apply for_each_Forall2 in E1.
  exact (Forall2_lookup_lr _ _ _ _ _ _ E1 Hs Hs1).
Qed.

End BatchMore.

Lemma for_each_returns {A B} (f : A -> result B) (l : list A) :
  Forall (fun a => returns (f a)) l -> returns (for_each f l).
Proof.
  induction 1 as [|a l Ha _ IH]; simpl; [exact I |].
  destruct (f a); [| destruct Ha]. cbn [mbind result_bind].
  destruct (for_each f l); [exact I | destruct IH].
Qed.

Section BatchTheorems.

Variable eig_finite : (R * R) * (R * R) -> (R * R) * ((R * R) * (R * R)).

Lemma roi_stats_record_returns (ky kx : Z) (s : gmap string value) :
  record_ok ky kx s -> returns (roi_stats_record eig_finite ky kx s).
Proof.
  intros (yp & xp & l & Hy & Hx & Hl & Hyx & Hxl & Hrad).
  assert (Hinit : ROI_init yp xp l (Some kx) (Some ky) default_rsort
                  = Ok (mkROI yp xp l (Some kx) (Some ky) default_rsort))
    by (apply ROI_init_ok; assumption).
  unfold roi_stats_record.
  assert (Hroi : roi_of_record ky kx s
                 = Ok (mkROI yp xp l (Some kx) (Some ky) default_rsort)).
  { unfold roi_of_record, get. rewrite Hy, Hx, Hl.
    cbn [mbind result_bind as_int_array as_float_array]. exact Hinit. }
  rewrite Hroi. cbn [mbind result_bind].
  rewrite (ROI_mean_r_squared_valid yp xp l (Some kx) (Some ky) default_rsort Hyx).
  cbn [mbind result_bind].
  unfold ROI_mean_r_squared_compact.
  rewrite (ROI_mean_r_squared_valid yp xp l (Some kx) (Some ky) default_rsort Hyx).
  cbn [mbind result_bind].
  match goal with
  | |- returns (match ?m with _ => _ end) =>
      assert (Hm : m = s !! "radius") by lookup_inserted; rewrite Hm
  end.
  destruct (s !! "radius") as [v|] eqn:Erad; [exact I |].
  destruct Hrad as [[v Hv] | (rl & -> & Hkx & Hky & Hw & Hpos)]; [discriminate |].
  assert (Hnn : Forall (fun w => 0 <= w) rl).
  { eapply Forall_impl; [exact Hw |]. intros w [H0 _]. exact H0. }
  destruct (ROI_fit_returns eig_finite yp xp rl kx ky default_rsort _ Hinit
              Hkx Hky Hnn Hpos) as (_ & Hr & Ha).
  destruct (ROI_radii_again eig_finite
              (mkROI yp xp (map Fin rl) (Some kx) (Some ky) default_rsort) rl eq_refl
              ltac:(lra)) as (_ & Hagain).
  rewrite <- Hagain in Ha.
  destruct (ROI_radius eig_finite _).2 as [radius|]; [| destruct Hr].
  cbn [mbind result_bind].
  destruct (ROI_aspect_ratio eig_finite _).2 as [ar|]; [| destruct Ha].
  exact I.
Qed.

Lemma roi_stats_runs (ky kx : Z) (stats : list (gmap string value)) :
  Forall (record_ok ky kx) stats ->
  returns (roi_stats eig_finite ky kx stats).
Proof.
  intros Hok. unfold roi_stats.
  assert (H1 : returns (for_each (roi_stats_record eig_finite ky kx) stats)).
  { apply for_each_returns. eapply Forall_impl; [exact Hok |].
    intros s. apply roi_stats_record_returns. }
  destruct (for_each (roi_stats_record eig_finite ky kx) stats) as [stats1|] eqn:E1;
    [| destruct H1].
  cbn [mbind result_bind].
  assert (Hf : Forall (fun s1 => exists m n, s1 !! "mrs" = Some (VFloat m) /\
                                             s1 !! "npix" = Some (VInt n)) stats1).
  { apply for_each_Forall2 in E1. apply Forall_forall. intros s1 Hs1.
    apply list_elem_of_lookup in Hs1 as (i & Hi).
    destruct (Forall2_lookup_r _ _ _ _ _ E1 Hi) as (s & _ & Hrec).
    destruct (roi_stats_record_fields eig_finite _ _ _ _ Hrec)
      as (r & m & _ & _ & Hm & Hn & _).
    eexists _, _. split; eassumption. }
  assert (H2 : returns (for_each (fun stat => get stat "mrs" ≫= as_float) stats1)).
  { apply for_each_returns. eapply Forall_impl; [exact Hf |].
    intros s1 (m & n & Hm & _). unfold get. rewrite Hm. exact I. }
  destruct (for_each (fun stat => get stat "mrs" ≫= as_float) stats1); [| destruct H2].
  cbn [mbind result_bind].
  assert (H3 : returns (for_each (fun stat => get stat "npix" ≫= as_float) stats1)).
  { apply for_each_returns. eapply Forall_impl; [exact Hf |].
    intros s1 (m & n & _ & Hn). unfold get. rewrite Hn. exact I. }
  destruct (for_each (fun stat => get stat "npix" ≫= as_float) stats1); [| destruct H3].
  exact I.
Qed.

(** X21: on a batch all of whose records are well formed (arrays of one
    size under ['ypix'], ['xpix'] and ['lam'], and either a radius already
    there or non-zero scale factors with non-negative weights of positive
    sum, none above [max_weight]) [roi_stats] returns: it raises nothing. *)
Theorem roi_stats_returns (ky kx : Z) (stats : list (gmap string value)) :
  Forall (record_ok ky kx) stats ->
  returns (roi_stats eig_finite ky kx stats).
Proof. apply roi_stats_runs. Qed.

(** X22: a record without the key ['ypix'] makes [roi_stats] raise, and
    when the records before it are in order the exception is
    [KeyError('ypix')]. *)
Theorem roi_stats_missing_key (ky kx : Z) (pre post : list (gmap string value))
    (s : gmap string value) :
  s !! "ypix" = None ->
  raises (roi_stats eig_finite ky kx (pre ++ s :: post)) /\
  (Forall (record_ok ky kx) pre ->
   roi_stats eig_finite ky kx (pre ++ s :: post) = Raise (KeyError "ypix")).
Proof.
  intros Hs.
  assert (Hrec : roi_stats_record eig_finite ky kx s = Raise (KeyError "ypix")).
  { unfold roi_stats_record. rewrite roi_of_record_missing by exact Hs. reflexivity. }
  split.
  - unfold roi_stats.
    pose proof (for_each_raises_at (roi_stats_record eig_finite ky kx) pre post s) as H.
    rewrite Hrec in H. specialize (H I).
    destruct (for_each _ (pre ++ s :: post)); [destruct H | exact I].
  - intros Hpre. unfold roi_stats.
    assert (H1 : returns (for_each (roi_stats_record eig_finite ky kx) pre)).
    { apply for_each_returns. eapply Forall_impl; [exact Hpre |].
      intros s0. apply roi_stats_record_returns. }
    destruct (for_each (roi_stats_record eig_finite ky kx) pre) as [pre'|] eqn:E;
      [| destruct H1].
    rewrite (for_each_raise _ pre post s pre' _ E Hrec). reflexivity.
Qed.

End BatchTheorems.

Lemma written_key_ne (k key : string) :
  k ∉ written_keys -> key ∈ written_keys -> key <> k.
Proof. intros Hk Hin ->. contradiction. Qed.

Ltac written_key :=
  unfold written_keys;
  repeat first [apply list_elem_of_here | apply list_elem_of_further].

Ltac lookup_other Hk :=
  repeat (rewrite lookup_insert_ne
            by first [discriminate | apply (written_key_ne _ _ Hk); written_key]);
  rewrite ?lookup_insert_eq; try reflexivity.

Lemma roi_stats_normed_other (s : gmap string value) (a b : float64) (k : string) :
  k <> "mrs" -> k <> "npix_norm" -> k <> "footprint" ->
  roi_stats_normed s a b !! k = s !! k.
Proof.
  intros H1 H2 H3. unfold roi_stats_normed.
  destruct (_ !! "footprint");
    rewrite !lookup_insert_ne by congruence; reflexivity.
Qed.

Section BatchFrame.

Variable eig_finite : (R * R) * (R * R) -> (R * R) * ((R * R) * (R * R)).

(** What the record of the first loop holds under each key. *)
Lemma roi_stats_record_lookup (ky kx : Z) (s s1 : gmap string value) :
  roi_stats_record eig_finite ky kx s = Ok s1 ->
  exists r m c,
    roi_of_record ky kx s = Ok r /\
    ROI_mean_r_squared r = Ok m /\
    ROI_mean_r_squared_compact r = Ok c /\
    s1 !! "mrs" = Some (VFloat m) /\
    s1 !! "mrs0" = Some (VFloat (ROI_mean_r_squared0 r)) /\
    s1 !! "compact" = Some (VFloat c) /\
    s1 !! "npix" = Some (VInt (Z.of_nat (ROI_n_pixels r))) /\
    (forall k, k ∉ written_keys -> s1 !! k = s !! k) /\
    (is_Some (s !! "radius") ->
     s1 !! "radius" = s !! "radius" /\ s1 !! "aspect_ratio" = s !! "aspect_ratio" /\
     s1 !! "lam" = s !! "lam") /\
    (s !! "radius" = None ->
     s1 !! "lam" = Some (VFloatArray (normalize_inplace (normalize_inplace (lam r)))) /\
     exists radius ar, s1 !! "radius" = Some (VFloat radius) /\
                       s1 !! "aspect_ratio" = Some (VFloat ar)).
Proof.
  intros H. apply roi_stats_record_inv in H as (r & m & c & Hr & Hm & Hc & Hs1).
  exists r, m, c. split; [exact Hr |]. split; [exact Hm |]. split; [exact Hc |].
  cbv zeta in Hs1.
  destruct Hs1 as [(Hrad & ->) | (Hrad & radius & ar & ->)].
  - split; [lookup_inserted |]. split; [lookup_inserted |].
    split; [lookup_inserted |]. split; [lookup_inserted |].
    split; [intros k Hk; lookup_other Hk |].
    split.
    + intros _. repeat split; lookup_inserted.
    + intros Hnone. rewrite Hnone in Hrad. destruct Hrad as [v Hv]. discriminate.
  - split; [lookup_inserted |]. split; [lookup_inserted |].
    split; [lookup_inserted |]. split; [lookup_inserted |].
    split; [intros k Hk; lookup_other Hk |].
    split.
    + intros [v Hv]. rewrite Hrad in Hv. discriminate.
    + intros _. split; [lookup_inserted |].
      exists radius, ar. split; lookup_inserted.
Qed.

Lemma roi_stats_length (ky kx : Z) (stats out : list (gmap string value)) :
  roi_stats eig_finite ky kx stats = Ok out -> length out = length stats.
Proof.
  intros H. apply roi_stats_inv in H as (stats1 & mrs & npix & E1 & E2 & E3 & ->).
  apply for_each_Forall2, Forall2_length in E1, E2, E3.
  rewrite length_zip_with, length_zip, !norm_by_average_length. lia.
Qed.

(** X23: [roi_stats] returns as many records as it was given, and in each it
    leaves every key it does not assign to as it was; the pixel arrays
    ['ypix'] and ['xpix'] among them. *)
Theorem roi_stats_frame (ky kx : Z) (stats out : list (gmap string value))
    (i : nat) (s o : gmap string value) (k : string) :
  roi_stats eig_finite ky kx stats = Ok out ->
  stats !! i = Some s ->
  out !! i = Some o ->
  k ∉ written_keys ->
  length out = length stats /\
  o !! k = s !! k /\ o !! "ypix" = s !! "ypix" /\ o !! "xpix" = s !! "xpix".
Proof.
  intros H Hs Ho Hk. split; [eapply roi_stats_length, H |].
  destruct (roi_stats_at eig_finite _ _ _ _ H) as (d1 & d2 & Hat).
  destruct (Hat i s o Hs Ho) as (s1 & r & m & Hrec & _ & _ & ->).
  destruct (roi_stats_record_lookup _ _ _ _ Hrec)
    as (r' & m' & c & _ & _ & _ & _ & _ & _ & _ & Hother & _).
  repeat split.
  - rewrite roi_stats_normed_other;
      [apply Hother, Hk | | |]; apply not_eq_sym, (written_key_ne _ _ Hk); written_key.
  - rewrite roi_stats_normed_other by discriminate. apply Hother.
    unfold written_keys. intros Hin. repeat (apply elem_of_cons in Hin as [Hin | Hin];
      [discriminate |]). apply elem_of_nil in Hin. exact Hin.
  - rewrite roi_stats_normed_other by discriminate. apply Hother.
    unfold written_keys. intros Hin. repeat (apply elem_of_cons in Hin as [Hin | Hin];
      [discriminate |]). apply elem_of_nil in Hin. exact Hin.
Qed.

(** X24: a record that comes with a radius keeps it: [roi_stats] leaves
    ['radius'], ['aspect_ratio'] and the weights ['lam'] of that record as
    they were. *)
Theorem roi_stats_keeps_radius (ky kx : Z) (stats out : list (gmap string value))
    (i : nat) (s o : gmap string value) :
  roi_stats eig_finite ky kx stats = Ok out ->
  stats !! i = Some s ->
  out !! i = Some o ->
  is_Some (s !! "radius") ->
  o !! "radius" = s !! "radius" /\
  o !! "aspect_ratio" = s !! "aspect_ratio" /\
  o !! "lam" = s !! "lam".
Proof.
  intros H Hs Ho Hrad.
  destruct (roi_stats_at eig_finite _ _ _ _ H) as (d1 & d2 & Hat).
  destruct (Hat i s o Hs Ho) as (s1 & r & m & Hrec & _ & _ & ->).
  destruct (roi_stats_record_lookup _ _ _ _ Hrec)
    as (r' & m' & c & _ & _ & _ & _ & _ & _ & _ & _ & Hkeep & _).
  destruct (Hkeep Hrad) as (H1 & H2 & H3).
  rewrite !roi_stats_normed_other by discriminate. repeat split; assumption.
Qed.

(** X25: a record that comes without a radius gets one, and an aspect
    ratio, from the fit; the fit having run twice on the record's own
    weight array, ['lam'] holds the normalized weights when [roi_stats]
    returns. *)
Theorem roi_stats_normalizes_lam (ky kx : Z) (stats out : list (gmap string value))
    (i : nat) (s o : gmap string value) :
  roi_stats eig_finite ky kx stats = Ok out ->
  stats !! i = Some s ->
  out !! i = Some o ->
  s !! "radius" = None ->
  exists l radius ar,
    s !! "lam" = Some (VFloatArray l) /\
    o !! "lam" = Some (VFloatArray (normalize_inplace (normalize_inplace l))) /\
    o !! "radius" = Some (VFloat radius) /\
    o !! "aspect_ratio" = Some (VFloat ar).
Proof.
  intros H Hs Ho Hrad.
  destruct (roi_stats_at eig_finite _ _ _ _ H) as (d1 & d2 & Hat).
  destruct (Hat i s o Hs Ho) as (s1 & r & m & Hrec & _ & _ & ->).
  destruct (roi_stats_record_lookup _ _ _ _ Hrec)
    as (r' & m' & c & Hr & _ & _ & _ & _ & _ & _ & _ & _ & Hnew).
  destruct (Hnew Hrad) as (Hl & radius & ar & H1 & H2).
  apply roi_of_record_inv in Hr as (_ & _ & Hlam & _).
  exists (lam r'), radius, ar.
  rewrite !roi_stats_normed_other by discriminate. repeat split; assumption.
Qed.

End BatchFrame.

Section BatchShape.

Variable eig_finite : (R * R) * (R * R) -> (R * R) * ((R * R) * (R * R)).

(** X26: two records of one batch whose pixel masks, both in
    [pixel_range], differ by a shift of [(cy, cx)] pixels come out with the
    same ['mrs'], ['mrs0'], ['compact'], ['npix'] and ['npix_norm']. *)
Theorem roi_stats_same_shape (ky kx : Z) (stats out : list (gmap string value))
    (i j : nat) (s s' o o' : gmap string value) (yp xp : list Z) (cy cx : Z) :
  roi_stats eig_finite ky kx stats = Ok out ->
  stats !! i = Some s -> out !! i = Some o ->
  stats !! j = Some s' -> out !! j = Some o' ->
  s !! "ypix" = Some (VIntArray yp) ->
  s !! "xpix" = Some (VIntArray xp) ->
  s' !! "ypix" = Some (VIntArray (map (Z.add cy) yp)) ->
  s' !! "xpix" = Some (VIntArray (map (Z.add cx) xp)) ->
  Forall pixel_range yp -> Forall pixel_range (map (Z.add cy) yp) ->
  Forall pixel_range xp -> Forall pixel_range (map (Z.add cx) xp) ->
  o' !! "mrs" = o !! "mrs" /\
  o' !! "mrs0" = o !! "mrs0" /\
  o' !! "compact" = o !! "compact" /\
  o' !! "npix" = o !! "npix" /\
  o' !! "npix_norm" = o !! "npix_norm".
Proof.
  intros H Hs Ho Hs' Ho' Hy Hx Hy' Hx' _ _ _ _.
  destruct (roi_stats_at eig_finite _ _ _ _ H) as (d1 & d2 & Hat).
  destruct (Hat i s o Hs Ho) as (s1 & r & m & Hrec & Hr & Hm & ->).
  destruct (Hat j s' o' Hs' Ho') as (s1' & r' & m' & Hrec' & Hr' & Hm' & ->).
  destruct (roi_stats_record_lookup _ _ _ _ _ Hrec)
    as (r0 & m0 & c & Hr0 & Hm0 & Hc & _ & F0 & Fc & Fn & _).
  destruct (roi_stats_record_lookup _ _ _ _ _ Hrec')
    as (r0' & m0' & c' & Hr0' & Hm0' & Hc' & _ & F0' & Fc' & Fn' & _).
  rewrite Hr in Hr0. injection Hr0 as <-. rewrite Hr' in Hr0'. injection Hr0' as <-.
  rewrite Hm in Hm0. injection Hm0 as <-. rewrite Hm' in Hm0'. injection Hm0' as <-.
  apply roi_of_record_inv in Hr as (Ey & Ex & _ & _ & _ & Ers & _).
  apply roi_of_record_inv in Hr' as (Ey' & Ex' & _ & _ & _ & Ers' & _).
  rewrite Hy in Ey. rewrite Hx in Ex. rewrite Hy' in Ey'. rewrite Hx' in Ex'.
  injection Ey as Ey. injection Ex as Ex. injection Ey' as Ey'. injection Ex' as Ex'.
  destruct r as [ry rx rl rdx rdy rrs]. destruct r' as [ry' rx' rl' rdx' rdy' rrs'].
  cbn [ypix xpix rsort] in *. subst ry rx ry' rx' rrs rrs'.
  destruct (ROI_moved_same yp xp rl rdx rdy default_rsort cy cx) as (_ & Tm & T0 & Tc).
  cbv zeta in Tm, T0, Tc.
  assert (Sm : m' = m).
  { unfold ROI_mean_r_squared in *. cbn [ypix xpix] in *.
    rewrite Tm in Hm'. rewrite Hm in Hm'. injection Hm' as <-. reflexivity. }
  assert (S0 : ROI_mean_r_squared0
                 (mkROI (map (Z.add cy) yp) (map (Z.add cx) xp) rl' rdx' rdy' default_rsort)
               = ROI_mean_r_squared0 (mkROI yp xp rl rdx rdy default_rsort)).
  { unfold ROI_mean_r_squared0. cbn [ypix rsort]. rewrite length_map. reflexivity. }
  assert (Sc : c' = c).
  { unfold ROI_mean_r_squared_compact in Hc, Hc'. rewrite Hm in Hc. rewrite Hm' in Hc'.
    cbn [mbind result_bind] in Hc, Hc'. rewrite S0, Sm in Hc'.
    rewrite Hc in Hc'. injection Hc' as <-. reflexivity. }
  assert (Sn : ROI_n_pixels
                 (mkROI (map (Z.add cy) yp) (map (Z.add cx) xp) rl' rdx' rdy' default_rsort)
               = ROI_n_pixels (mkROI yp xp rl rdx rdy default_rsort)).
  { unfold ROI_n_pixels. cbn [xpix]. apply length_map. }
  destruct (roi_stats_normed_fields s1 (Fdiv m d1)
              (Fdiv (of_int (Z.of_nat (ROI_n_pixels (mkROI yp xp rl rdx rdy default_rsort)))) d2))
    as (A1 & A2 & A3 & _).
  destruct (roi_stats_normed_fields s1' (Fdiv m' d1)
              (Fdiv (of_int (Z.of_nat (ROI_n_pixels
                 (mkROI (map (Z.add cy) yp) (map (Z.add cx) xp) rl' rdx' rdy' default_rsort)))) d2))
    as (B1 & B2 & B3 & _).
  rewrite A1, A2, A3, B1, B2, B3.
  rewrite !roi_stats_normed_other by discriminate.
  rewrite F0, F0', Fc, Fc', Fn, Fn', S0, Sc, Sm, Sn. repeat split.
Qed.

End BatchShape.

(** ** The adapter on a batch of two records *)

Lemma two_pixel_record_ok : record_ok 1 1 two_pixel_record.
Proof.
  exists [0; 1]%Z, [0; 0]%Z, [Fin 1; Fin 1]. unfold two_pixel_record.
  repeat split; try lookup_inserted. left. eexists. lookup_inserted.
Qed.

Lemma unit_square_record_ok : record_ok 1 1 unit_square_record.
Proof.
  exists [0; 0; 1; 1]%Z, [0; 1; 0; 1]%Z, (map Fin [1; 1; 1; 1]). unfold unit_square_record.
  repeat split; try lookup_inserted. right. exists [1; 1; 1; 1].
  split; [reflexivity |]. split; [lia |]. split; [lia |]. split.
  - unfold max_weight. repeat constructor; lra.
  - unfold Rsum. simpl. lra.
Qed.

Lemma sample_batch_run :
  exists o0 o1,
    roi_stats eig_symmetric 1 1 [two_pixel_record; unit_square_record] = Ok [o0; o1].
Proof.
  assert (Hok : Forall (record_ok 1 1) [two_pixel_record; unit_square_record]).
  { repeat constructor; [apply two_pixel_record_ok | apply unit_square_record_ok]. }
  destruct (returns_Ok _ (roi_stats_runs eig_symmetric 1 1 _ Hok)) as (out & Hout).
  pose proof (roi_stats_length eig_symmetric _ _ _ _ Hout) as Hlen.
  destruct out as [|o0 [|o1 [|o2 out]]]; simpl in Hlen; try lia.
  exists o0, o1. exact Hout.
Qed.

Lemma roi_stats_returns_witness :
  returns (roi_stats eig_symmetric 1 1 [two_pixel_record; unit_square_record]).
Proof.
  apply roi_stats_returns.
  repeat constructor; [apply two_pixel_record_ok | apply unit_square_record_ok].
Defined.

Lemma roi_stats_missing_key_witness :
  raises (roi_stats eig_symmetric 1 1 ([two_pixel_record] ++ ∅ :: [unit_square_record])).
Proof.
  apply (roi_stats_missing_key eig_symmetric 1 1 [two_pixel_record]
           [unit_square_record] ∅).
  apply lookup_empty.
Defined.

Lemma roi_stats_frame_witness :
  exists o0 o1,
    roi_stats eig_symmetric 1 1 [two_pixel_record; unit_square_record] = Ok [o0; o1] /\
    o1 !! "ypix" = unit_square_record !! "ypix".
Proof.
  destruct sample_batch_run as (o0 & o1 & Hrun). exists o0, o1. split; [exact Hrun |].
  apply (roi_stats_frame eig_symmetric 1 1 _ _ 1 unit_square_record o1 "ypix" Hrun
           eq_refl eq_refl).
  unfold written_keys. intros Hin.
  repeat (apply elem_of_cons in Hin as [Hin | Hin]; [discriminate |]).
  apply elem_of_nil in Hin. exact Hin.
Defined.

Lemma roi_stats_keeps_radius_witness :
  exists o0 o1,
    roi_stats eig_symmetric 1 1 [two_pixel_record; unit_square_record] = Ok [o0; o1] /\
    o0 !! "radius" = two_pixel_record !! "radius".
Proof.
  destruct sample_batch_run as (o0 & o1 & Hrun). exists o0, o1. split; [exact Hrun |].
  apply (roi_stats_keeps_radius eig_symmetric 1 1 _ _ 0 two_pixel_record o0 Hrun
           eq_refl eq_refl).
  eexists. unfold two_pixel_record. lookup_inserted.
Defined.

Lemma roi_stats_normalizes_lam_witness :
  exists o0 o1 l,
    roi_stats eig_symmetric 1 1 [two_pixel_record; unit_square_record] = Ok [o0; o1] /\
    o1 !! "lam" = Some (VFloatArray (normalize_inplace (normalize_inplace l))).
Proof.
  destruct sample_batch_run as (o0 & o1 & Hrun).
  destruct (roi_stats_normalizes_lam eig_symmetric 1 1 _ _ 1 unit_square_record o1 Hrun
              eq_refl eq_refl) as (l & radius & ar & _ & Hl & _).
  { unfold unit_square_record. lookup_inserted. }
  exists o0, o1, l. split; assumption.
Defined.

Lemma moved_two_pixel_record_ok : record_ok 1 1 moved_two_pixel_record.
Proof.
  exists [5; 6]%Z, [7; 7]%Z, [Fin 2; Fin 3]. unfold moved_two_pixel_record.
  repeat split; try lookup_inserted. left. eexists. lookup_inserted.
Qed.

Lemma moved_batch_run :
  exists o0 o1,
    roi_stats eig_symmetric 1 1 [two_pixel_record; moved_two_pixel_record] = Ok [o0; o1].
Proof.
  assert (Hok : Forall (record_ok 1 1) [two_pixel_record; moved_two_pixel_record]).
  { repeat constructor; [apply two_pixel_record_ok | apply moved_two_pixel_record_ok]. }
  destruct (returns_Ok _ (roi_stats_runs eig_symmetric 1 1 _ Hok)) as (out & Hout).
  pose proof (roi_stats_length eig_symmetric _ _ _ _ Hout) as Hlen.
  destruct out as [|o0 [|o1 [|o2 out]]]; simpl in Hlen; try lia.
  exists o0, o1. exact Hout.
Qed.

Lemma roi_stats_same_shape_witness :
  exists o0 o1,
    roi_stats eig_symmetric 1 1 [two_pixel_record; moved_two_pixel_record] = Ok [o0; o1] /\
    o1 !! "mrs" = o0 !! "mrs".
Proof.
  destruct moved_batch_run as (o0 & o1 & Hrun). exists o0, o1. split; [exact Hrun |].
  apply (roi_stats_same_shape eig_symmetric 1 1 _ _ 0 1 two_pixel_record
           moved_two_pixel_record o0 o1 [0; 1]%Z [0; 0]%Z 5 7 Hrun
           eq_refl eq_refl eq_refl eq_refl);
    try (unfold two_pixel_record, moved_two_pixel_record; lookup_inserted);
    unfold pixel_range; cbn [map]; repeat constructor; lia.
Defined.

(** * The growth of the baseline *)

Lemma Rsum_app (a b : list R) : Rsum (a ++ b) = Rsum a + Rsum b.
Proof. unfold Rsum. induction a as [|v a IH]; simpl; [lra | rewrite IH; lra]. Qed.

Lemma Rsum_bounded (x : R) (a : list R) :
  Forall (fun v => v <= x) a -> Rsum a <= INR (length a) * x.
Proof.
  induction 1 as [|v a Hv _ IH]; [simpl; unfold Rsum; simpl; lra |].
  change (Rsum (v :: a)) with (v + Rsum a). rewrite length_cons, S_INR. lra.
Qed.

Lemma prefix_mean_step (sl : list R) (k : nat) (x : R) :
  (1 <= k)%nat ->
  sl !! k = Some x ->
  Forall (fun v => v <= x) (firstn k sl) ->
  Rsum (firstn k sl) / INR k <= Rsum (firstn (S k) sl) / INR (S k).
Proof.
  intros Hk Hx Hle.
  assert (Hlen : length (firstn k sl) = k).
  { apply length_take_le. apply lookup_lt_Some in Hx. lia. }
  pose proof (Rsum_bounded x _ Hle) as Hb. rewrite Hlen in Hb.
  rewrite (take_S_r sl k x Hx), Rsum_app, S_INR.
  change (Rsum [x]) with (x + 0).
  assert (HK : 0 < INR k) by (apply lt_0_INR; lia).
  set (S := Rsum (firstn k sl)) in *. set (K := INR k) in *.
  apply Rmult_le_reg_r with (K * (K + 1)); [nra |].
  replace (S / K * (K * (K + 1))) with (S * (K + 1)) by (field; lra).
  replace ((S + (x + 0)) / (K + 1) * (K * (K + 1))) with ((S + x) * K) by (field; lra).
  nra.
Qed.

Lemma prefix_mean_monotone (sl : list R) (n m : nat) :
  Sorted Fle (map Fin sl) ->
  (1 <= n <= m)%nat -> (m <= length sl)%nat ->
  Rsum (firstn n sl) / INR n <= Rsum (firstn m sl) / INR m.
Proof.
  intros Hs [Hn Hnm] Hm. induction Hnm as [|m Hnm IH]; [lra |].
  eapply Rle_trans; [apply IH; lia |].
  destruct (lookup_lt_is_Some_2 sl m ltac:(lia)) as (x & Hx).
  apply (prefix_mean_step sl m x); [lia | exact Hx |].
  eapply Sorted_Fle_reals; eassumption.
Qed.

Lemma np_mean_prefix (sl : list R) (n : nat) :
  (1 <= n <= length sl)%nat ->
  np_mean (firstn n (map Fin sl)) = Fin (Rsum (firstn n sl) / INR n).
Proof.
  intros Hn. rewrite firstn_map.
  assert (Hlen : length (firstn n sl) = n) by (apply length_take_le; lia).
  unfold np_mean, of_nat. rewrite np_sum_fin, length_map, Hlen.
  unfold Fdiv, Rzero. destruct (Req_dec_T (INR n) 0) as [H0 | _]; [| reflexivity].
  assert (0 < INR n) by (apply lt_0_INR; lia). lra.
Qed.

(** X28: on one radial reference table the baseline [mean_r_squared0] never
    decreases as the number of pixels grows: an ROI with more pixels has a
    baseline at least as large. *)
Theorem mean_r_squared0_monotone (roi roi' : ROI) (radius : Z) :
  rsort roi = radial_reference radius ->
  rsort roi' = radial_reference radius ->
  (0 <= radius)%Z ->
  (1 <= length (ypix roi) <= length (ypix roi'))%nat ->
  Fle (ROI_mean_r_squared0 roi) (ROI_mean_r_squared0 roi').
Proof.
  intros Hrs Hrs' HR [Hn Hnm]. unfold ROI_mean_r_squared0. rewrite Hrs, Hrs'.
  assert (Hall : Forall (fun e => exists s, e = Fin s /\ 0 <= s) (radial_reference radius)).
  { apply Forall_forall. intros e He. apply list_elem_of_In in He.
    destruct (radial_reference_bounds radius e HR He) as (s & -> & Hs & _).
    exists s. split; [reflexivity | exact Hs]. }
  destruct (nonneg_as_reals _ Hall) as (sl & Hsl & _).
  pose proof (radial_reference_sorted radius HR) as Hs.
  destruct (radial_reference_head radius HR) as (t & Ht).
  rewrite Hsl in *.
  assert (Hlen : (1 <= length sl)%nat).
  { destruct sl; [discriminate | simpl; lia]. }
  set (n := length (ypix roi)) in *. set (m := length (ypix roi')) in *.
  assert (Hcut : forall k, firstn k (map Fin sl)
                           = firstn (Nat.min k (length sl)) (map Fin sl)).
  { intros k. destruct (Nat.le_gt_cases k (length sl)) as [Hk | Hk].
    - rewrite Nat.min_l by exact Hk. reflexivity.
    - rewrite Nat.min_r by lia. rewrite !firstn_all2 by (rewrite length_map; lia).
      reflexivity. }
  rewrite (Hcut n), (Hcut m).
  rewrite !np_mean_prefix by lia. simpl.
  apply prefix_mean_monotone; [exact Hs | lia | lia].
Qed.

Lemma mean_r_squared0_monotone_witness :
  Fle (ROI_mean_r_squared0 (mkROI [0; 1]%Z [0; 0]%Z [Fin 1; Fin 1] None None
                                  (radial_reference 30)))
      (ROI_mean_r_squared0 (mkROI [0; 0; 1; 1]%Z [0; 1; 0; 1]%Z
                                  [Fin 1; Fin 1; Fin 1; Fin 1] None None
                                  (radial_reference 30))).
Proof.
  apply (mean_r_squared0_monotone
           (mkROI [0; 1]%Z [0; 0]%Z [Fin 1; Fin 1] None None (radial_reference 30))
           (mkROI [0; 0; 1; 1]%Z [0; 1; 0; 1]%Z [Fin 1; Fin 1; Fin 1; Fin 1] None None
                  (radial_reference 30))
           30 eq_refl eq_refl); [lia |].
  cbn [ypix length]. lia.
Defined.
